(** * ham-shack-glue: the WSJT-X packet forwarder (qsofwdsvc.py) and the
      flrig serial proxy (flrigproxy.py)

    A shallow embedding of the two Python programs.  Python objects become
    records, [self] becomes explicit state, exceptions become a result type,
    and every call that leaves the process (sockets, files, the logger, the
    child process) appends an event to a trace and takes its answer from an
    environment record, so the theorems hold for every behaviour of the
    outside world. *)

From Stdlib Require Import ZArith List Bool Lia String Ascii.
From Stdlib Require Import Strings.Byte.
Import ListNotations.
Local Open Scope Z_scope.

Set Implicit Arguments.

(* ===================================================================== *)
(** * Python values shared by both programs *)
(* ===================================================================== *)

(** [bytes] objects. *)
Definition bytes := list byte.

Definition byteZ (b : byte) : Z := Z.of_N (Byte.to_N b).

Definition byte_of_Z (z : Z) : byte :=
  match Byte.of_N (Z.to_N (z mod 256)) with
  | Some b => b
  | None => Byte.x00
  end.

Definition bytes_of (l : list Z) : bytes := map byte_of_Z l.

(** A Python [str] obtained by decoding: the sequence of its code points. *)
Definition pystr := list Z.

Definition str_of (s : string) : pystr :=
  map (fun a => Z.of_N (N_of_ascii a)) (list_ascii_of_string s).

Definition ascii_bytes (s : string) : bytes := list_byte_of_string s.

Fixpoint pystr_eqb (a b : pystr) : bool :=
  match a, b with
  | [], [] => true
  | x :: a', y :: b' => (x =? y) && pystr_eqb a' b'
  | _, _ => false
  end.

(** Sockets and child processes are identified by the order of creation. *)
Definition sock := nat.
Definition proc := nat.

(** A socket address [(host, port)]. *)
Definition addr := (string * Z)%type.

(** The exception classes that occur.  [OSError] stands for any
    [OSError] ([socket.error] is an alias of it) that is none of the three
    connection errors listed; [KeyboardInterrupt] derives from
    [BaseException] only. *)
Inductive exn :=
| StructError
| UnicodeDecodeError
| AttributeError
| KeyError
| TypeError
| ValueError
| ConnectionRefusedError
| ConnectionResetError
| BrokenPipeError
| OSError
| KeyboardInterrupt.

Definition exn_eqb (a b : exn) : bool :=
  match a, b with
  | StructError, StructError | UnicodeDecodeError, UnicodeDecodeError
  | AttributeError, AttributeError | KeyError, KeyError
  | TypeError, TypeError | ValueError, ValueError
  | ConnectionRefusedError, ConnectionRefusedError
  | ConnectionResetError, ConnectionResetError
  | BrokenPipeError, BrokenPipeError | OSError, OSError
  | KeyboardInterrupt, KeyboardInterrupt => true
  | _, _ => false
  end.

(** [isinstance(e, socket.error)]. *)
Definition is_socket_error (e : exn) : bool :=
  match e with
  | ConnectionRefusedError | ConnectionResetError | BrokenPipeError
  | OSError => true
  | _ => false
  end.

(** [isinstance(e, Exception)]. *)
Definition is_Exception (e : exn) : bool :=
  match e with
  | KeyboardInterrupt => false
  | _ => true
  end.

(** The outcome of running a piece of code: it returns, it raises, or (for
    the [while] loops of the serial proxy, which are run with fuel) it is
    still looping when the fuel is used up. *)
Inductive res (A : Type) :=
| Ret (a : A)
| Raise (e : exn)
| OutOfFuel.
Arguments Raise {A} e.
Arguments OutOfFuel {A}.

(* ===================================================================== *)
(** * A state and exception monad *)
(* ===================================================================== *)

Section StateExn.
Variable St : Type.

Definition M (A : Type) := St -> res A * St.

Definition ret {A} (a : A) : M A := fun s => (Ret a, s).

Definition bind {A B} (m : M A) (k : A -> M B) : M B :=
  fun s =>
    match m s with
    | (Ret a, s') => k a s'
    | (Raise e, s') => (Raise e, s')
    | (OutOfFuel, s') => (OutOfFuel, s')
    end.

Definition raise {A} (e : exn) : M A := fun s => (Raise e, s).

Definition gets {A} (f : St -> A) : M A := fun s => (Ret (f s), s).

Definition modify (f : St -> St) : M unit := fun s => (Ret tt, f s).

(** [try: body / except ...: / else: orelse].  [handler e] is [None] when
    no [except] clause matches [e].  Exceptions raised by a handler or by
    the [else] suite are not caught. *)
Definition try_else {A B} (body : M A) (handler : exn -> option (M B))
    (orelse : A -> M B) : M B :=
  fun s =>
    match body s with
    | (Ret a, s') => orelse a s'
    | (Raise e, s') =>
        match handler e with
        | Some h => h s'
        | None => (Raise e, s')
        end
    | (OutOfFuel, s') => (OutOfFuel, s')
    end.

Definition try_ {A} (body : M A) (handler : exn -> option (M A)) : M A :=
  try_else body handler ret.

(** [for x in xs: body x], left to right, stopping at the first exception. *)
Fixpoint for_ {A} (xs : list A) (body : A -> M unit) : M unit :=
  match xs with
  | [] => ret tt
  | x :: xs' => bind (body x) (fun _ => for_ xs' body)
  end.

(** Whatever the outcome of [m], the states before and after it are
    related by [R]. *)
Definition post {A} (R : St -> St -> Prop) (m : M A) : Prop :=
  forall s, R s (snd (m s)).
End StateExn.

Arguments ret {St A} a.
Arguments bind {St A B} m k.
Arguments raise {St A} e.
Arguments gets {St A} f.
Arguments modify {St} f.
Arguments try_else {St A B} body handler orelse.
Arguments try_ {St A} body handler.
Arguments for_ {St A} xs body.
Arguments post {St A} R m.

Declare Scope py_scope.
Delimit Scope py_scope with py.
Notation "x <- m ;; k" := (bind m (fun x => k))
  (at level 61, m at next level, right associativity) : py_scope.
Notation "' pat <- m ;; k" := (bind m (fun x => match x with pat => k end))
  (at level 61, pat pattern, m at next level, right associativity) : py_scope.
Notation "m ;; k" := (bind m (fun _ => k))
  (at level 61, right associativity) : py_scope.
Local Open Scope py_scope.

(* ===================================================================== *)
(** * Slices, [struct.unpack] and [bytes.decode] *)
(* ===================================================================== *)

Section Slices.
Variable A : Type.

Fixpoint takeZ (n : Z) (l : list A) : list A :=
  match l with
  | [] => []
  | x :: t => if n <=? 0 then [] else x :: takeZ (n - 1) t
  end.

Fixpoint dropZ (n : Z) (l : list A) : list A :=
  match l with
  | [] => []
  | x :: t => if n <=? 0 then l else dropZ (n - 1) t
  end.

(** [l[a:b]] for [0 <= a]: out-of-range bounds are clipped, never an
    error. *)
Definition slice (l : list A) (a b : Z) : list A := takeZ (b - a) (dropZ a l).
End Slices.

Definition len {A} (l : list A) : Z := Z.of_nat (List.length l).

(** Big-endian unsigned value of a byte string. *)
Definition be_value (bs : bytes) : Z :=
  fold_left (fun acc b => acc * 256 + byteZ b) bs 0.

(** [struct.unpack('>I', bs)]: [bs] must hold exactly 4 bytes. *)
Definition unpack_I (bs : bytes) : option Z :=
  if len bs =? 4 then Some (be_value bs) else None.

(** [struct.unpack('>III', bs)]: [bs] must hold exactly 12 bytes. *)
Definition unpack_III (bs : bytes) : option (Z * Z * Z) :=
  if len bs =? 12
  then Some (be_value (slice bs 0 4), be_value (slice bs 4 8),
             be_value (slice bs 8 12))
  else None.

(** [bs.decode()]: strict UTF-8.  Continuation bytes are [80..BF]; the
    second byte is further restricted after [E0], [ED], [F0] and [F4], so
    that overlong forms, surrogates and values above [10FFFF] are refused. *)
Definition in_range (lo hi x : Z) : bool := (lo <=? x) && (x <=? hi).

Definition cont (b : byte) : bool := in_range 0x80 0xBF (byteZ b).

Definition low6 (b : byte) : Z := byteZ b - 0x80.

Fixpoint utf8_decode (bs : bytes) : option pystr :=
  match bs with
  | [] => Some []
  | b0 :: t0 =>
      let c0 := byteZ b0 in
      if c0 <? 0x80 then option_map (cons c0) (utf8_decode t0)
      else if in_range 0xC2 0xDF c0 then
        match t0 with
        | b1 :: t1 =>
            if cont b1
            then option_map (cons ((c0 - 0xC0) * 64 + low6 b1)) (utf8_decode t1)
            else None
        | _ => None
        end
      else if in_range 0xE0 0xEF c0 then
        match t0 with
        | b1 :: b2 :: t2 =>
            let lo := if c0 =? 0xE0 then 0xA0 else 0x80 in
            let hi := if c0 =? 0xED then 0x9F else 0xBF in
            if in_range lo hi (byteZ b1) && cont b2
            then option_map
                   (cons ((c0 - 0xE0) * 4096 + low6 b1 * 64 + low6 b2))
                   (utf8_decode t2)
            else None
        | _ => None
        end
      else if in_range 0xF0 0xF4 c0 then
        match t0 with
        | b1 :: b2 :: b3 :: t3 =>
            let lo := if c0 =? 0xF0 then 0x90 else 0x80 in
            let hi := if c0 =? 0xF4 then 0x8F else 0xBF in
            if in_range lo hi (byteZ b1) && cont b2 && cont b3
            then option_map
                   (cons ((c0 - 0xF0) * 262144 + low6 b1 * 4096
                          + low6 b2 * 64 + low6 b3))
                   (utf8_decode t3)
            else None
        | _ => None
        end
      else None
  end.

(** Answers of the outside world to a call: a value or an exception. *)
Inductive answer (A : Type) :=
| Ok (a : A)
| Err (e : exn).
Arguments Err {A} e.

(** Python dictionaries keep insertion order: assigning to a key that is
    present replaces the value in place, a new key goes to the end. *)
Section Dict.
Variable V : Type.

Definition dict := list (pystr * V).

Fixpoint dict_get (k : pystr) (d : dict) : option V :=
  match d with
  | [] => None
  | (k', v) :: d' => if pystr_eqb k k' then Some v else dict_get k d'
  end.

Fixpoint dict_set (k : pystr) (v : V) (d : dict) : dict :=
  match d with
  | [] => [(k, v)]
  | (k', v') :: d' =>
      if pystr_eqb k k' then (k', v) :: d' else (k', v') :: dict_set k v d'
  end.

Definition dict_keys (d : dict) : list pystr := map fst d.
Definition dict_values (d : dict) : list V := map snd d.
End Dict.

Definition default {A} (d : A) (o : option A) : A :=
  match o with
  | Some a => a
  | None => d
  end.

(* ===================================================================== *)
(** * qsofwdsvc.py *)
(* ===================================================================== *)

Module QsoFwd.

Definition WSJTX_HEARTBEAT : Z := 0.

(** A [WSJPacket] has the attributes [parse] gave it: [type] and [ident]
    always, the other three only for a heartbeat.  [max_schema] holds what
    [struct.unpack] returned, a tuple. *)
Record WSJPacket := {
  type : Z;
  ident : pystr;
  version : option pystr;
  revision : option pystr;
  max_schema : option (list Z)
}.

Record WSJTXSource := {
  src_ident : pystr;
  dest : addr;
  proxysock : sock
}.

(** The YAML document, read as the mapping the program expects; a key that
    is absent is [None]. *)
Record source_cfg := { s_host : option string; s_port : option Z }.
Record destination := {
  d_host : option string;
  d_port : option Z;
  d_name : option string
}.
Record Config := {
  loglevel : option string;
  source : option source_cfg;
  destinations : option (list destination)
}.

Definition empty_config : Config :=
  {| loglevel := None; source := None; destinations := None |}.

Inductive level := DEBUG | INFO | WARNING | ERROR.

(** The display name of a destination: the configured one, or
    ['%s:%s' % (host, port)]. *)
Inductive dest_name :=
| Named (n : string)
| HostPort (host : string) (port : Z).

Inductive log_msg :=
| InvalidMagic (magic : Z)
| InvalidSchema (schema : Z)
| LoadedConfig
| UnknownLoglevel (name : string)
| FailedToLoadConfig (e : exn)
| ListeningOn (a : addr)
| NewSourceFound (a : addr) (id ver rev : pystr)
| ReceivedType (ty : Z) (id : pystr)
| UnableToSendToPort (name : dest_name) (port : Z) (e : exn)
| UnknownSource (client : string) (id : pystr)
| UnableToSendTo (a : addr) (e : exn)
| MessageFromClient (client : string) (id : pystr) (a : addr).

(** What the process does to the outside world, in order. *)
(** A value found in the [logging] module, as far as [Logger.setLevel]
    tells values apart: an [int] (a [bool] is one), a [str], or any other
    object (a function, a class, a module, a float, ...). *)
Inductive pyobj :=
| PyInt (n : Z)
| PyStr (s : string)
| PyOther.

Inductive event :=
| Log (lvl : level) (msg : log_msg)
| SetLevel (lvl : Z)
| Stat
| LoadYaml
| NewSocket (s : sock)
| SetBlocking (s : sock)
| Bind (s : sock) (a : addr)
| Select (socks : list sock)
| RecvFrom (s : sock)
| SendTo (s : sock) (data : bytes) (a : addr).

(** The attributes of the [QSOForwarder] object, then the trace of the
    process and the number of sockets created so far. *)
Record state := {
  _last_config : Z;
  _config : Config;
  inbound : sock;
  sources : dict WSJTXSource;
  trace : list event;
  next_sock : sock
}.

Definition set_last_config (m : Z) (s : state) : state :=
  {| _last_config := m; _config := _config s; inbound := inbound s;
     sources := sources s; trace := trace s; next_sock := next_sock s |}.
Definition set_config (c : Config) (s : state) : state :=
  {| _last_config := _last_config s; _config := c; inbound := inbound s;
     sources := sources s; trace := trace s; next_sock := next_sock s |}.
Definition set_inbound (i : sock) (s : state) : state :=
  {| _last_config := _last_config s; _config := _config s; inbound := i;
     sources := sources s; trace := trace s; next_sock := next_sock s |}.
Definition set_sources (d : dict WSJTXSource) (s : state) : state :=
  {| _last_config := _last_config s; _config := _config s;
     inbound := inbound s; sources := d; trace := trace s;
     next_sock := next_sock s |}.
Definition set_trace (t : list event) (s : state) : state :=
  {| _last_config := _last_config s; _config := _config s;
     inbound := inbound s; sources := sources s; trace := t;
     next_sock := next_sock s |}.
Definition set_next_sock (n : sock) (s : state) : state :=
  {| _last_config := _last_config s; _config := _config s;
     inbound := inbound s; sources := sources s; trace := trace s;
     next_sock := n |}.

(** The answers of the outside world.  The first argument is the number of
    events before the call, so that the same call may be answered
    differently at different times. *)
Record Env := {
  stat_mtime : nat -> answer Z;
  load_yaml : nat -> answer Config;
  bind_result : nat -> answer unit;
  select_result : nat -> answer (list sock);
  recvfrom_result : nat -> sock -> answer (bytes * addr);
  sendto_result : nat -> sock -> bytes -> addr -> answer unit;
  (* What the [logging] module holds under a name that is not one of its
     level constants (functions such as [debug], classes such as [Logger],
     strings such as [BASIC_FORMAT], flags such as [raiseExceptions]); it
     depends on the version of the library.  [None]: no such attribute. *)
  logging_other : string -> option pyobj
}.

Definition emit (e : event) : M state unit :=
  modify (fun s => set_trace (trace s ++ [e]) s).

(** Perform a call: record it and take the world's answer. *)
Definition call {A} (e : event) (a : nat -> answer A) : M state A :=
  fun s =>
    let s' := set_trace (trace s ++ [e]) s in
    match a (List.length (trace s)) with
    | Ok x => (Ret x, s')
    | Err ex => (Raise ex, s')
    end.

Definition LOG (lvl : level) (msg : log_msg) : M state unit :=
  emit (Log lvl msg).

(** [socket.socket(socket.AF_INET, socket.SOCK_DGRAM)] *)
Definition socket_socket : M state sock :=
  n <- gets next_sock ;;
  modify (set_next_sock (S n)) ;;
  emit (NewSocket n) ;;
  ret n.

Definition struct_unpack_I (bs : bytes) : M state Z :=
  match unpack_I bs with
  | Some z => ret z
  | None => raise StructError
  end.

Definition struct_unpack_III (bs : bytes) : M state (Z * Z * Z) :=
  match unpack_III bs with
  | Some t => ret t
  | None => raise StructError
  end.

Definition decode (bs : bytes) : M state pystr :=
  match utf8_decode bs with
  | Some s => ret s
  | None => raise UnicodeDecodeError
  end.

(** ** class WSJPacket *)

Definition parse_string (buffer : bytes) (offset : Z) : M state pystr :=
  size <- struct_unpack_I (slice buffer offset (offset + 4)) ;;
  decode (slice buffer (offset + 4) (offset + 4 + size)).

(** The dictionary [parse_type_0] returns, by key. *)
Record props := {
  props_version : option pystr;
  props_revision : option pystr;
  props_max_schema : option (list Z)
}.

Definition no_props : props :=
  {| props_version := None; props_revision := None;
     props_max_schema := None |}.

Definition parse_type_0 (message : bytes) (offset : Z) : M state props :=
  max_schema <- struct_unpack_I (slice message offset (offset + 4)) ;;
  let offset := offset + 4 in
  version <- parse_string message offset ;;
  let offset := offset + len version in
  revision <- parse_string message offset ;;
  ret {| props_version := Some version; props_revision := Some revision;
         props_max_schema := Some [max_schema] |}.

(** [None] is Python's [None], returned after the error is logged. *)
Definition parse (message : bytes) : M state (option WSJPacket) :=
  '(magic, schema, number) <- struct_unpack_III (slice message 0 (3 * 4)) ;;
  if negb (magic =? 0xADBCCBDA) then
    LOG ERROR (InvalidMagic magic) ;; ret None
  else if negb (schema =? 2) then
    LOG ERROR (InvalidSchema schema) ;; ret None
  else
    ident <- parse_string message (3 * 4) ;;
    props <- (if number =? 0
              then parse_type_0 message (4 * 4 + len ident)
              else ret no_props) ;;
    ret (Some {| type := number; ident := ident;
                 version := props_version props;
                 revision := props_revision props;
                 max_schema := props_max_schema props |}).

(** ** class WSJTXSource *)

Definition WSJTXSource__init__ (ident : pystr) (dest : addr)
  : M state WSJTXSource :=
  proxysock <- socket_socket ;;
  ret {| src_ident := ident; dest := dest; proxysock := proxysock |}.

Definition set_dest (a : addr) (src : WSJTXSource) : WSJTXSource :=
  {| src_ident := src_ident src; dest := a; proxysock := proxysock src |}.

(** ** class QSOForwarder *)

(** The integer level constants of the [logging] module, which are also
    the names [setLevel] accepts as strings ([logging._nameToLevel]).
    [None] says that the name is not one of them; it may still be another
    attribute of the module, see [getattr_logging]. *)
Definition logging_level (name : string) : option Z :=
  if String.eqb name "CRITICAL" then Some 50
  else if String.eqb name "FATAL" then Some 50
  else if String.eqb name "ERROR" then Some 40
  else if String.eqb name "WARNING" then Some 30
  else if String.eqb name "WARN" then Some 30
  else if String.eqb name "INFO" then Some 20
  else if String.eqb name "DEBUG" then Some 10
  else if String.eqb name "NOTSET" then Some 0
  else None.

(** Attribute access on a value that may be [None]. *)
Definition getattr {A B} (o : option A) (f : A -> B) : M state B :=
  match o with
  | Some a => ret (f a)
  | None => raise AttributeError
  end.

(** Access to an attribute that only some packets have. *)
Definition getattr_opt {A B} (o : option A) (f : A -> option B) : M state B :=
  match o with
  | Some a =>
      match f a with
      | Some b => ret b
      | None => raise AttributeError
      end
  | None => raise AttributeError
  end.

(** [d[k]] *)
Definition getitem {V} (d : dict V) (k : pystr) : M state V :=
  match dict_get k d with
  | Some v => ret v
  | None => raise KeyError
  end.

(** [m[k]] for a key of the configuration. *)
Definition getkey {A} (o : option A) : M state A :=
  match o with
  | Some a => ret a
  | None => raise KeyError
  end.

Definition mem_sock (s : sock) (l : list sock) : bool :=
  existsb (Nat.eqb s) l.

Section Forwarder.
Variable env : Env.

Definition os_stat_mtime : M state Z := call Stat (stat_mtime env).

Definition recvfrom (s : sock) : M state (bytes * addr) :=
  call (RecvFrom s) (fun t => recvfrom_result env t s).

Definition sendto (s : sock) (data : bytes) (a : addr) : M state unit :=
  call (SendTo s data a) (fun t => sendto_result env t s data a).

(** [getattr(logging, name)]: a level constant, another attribute of the
    module, or [AttributeError]. *)
Definition getattr_logging (name : string) : M state pyobj :=
  match logging_level name with
  | Some l => ret (PyInt l)
  | None =>
      match logging_other env name with
      | Some o => ret o
      | None => raise AttributeError
      end
  end.

(** [LOG.setLevel(level)], with the check [logging._checkLevel] makes: an
    [int] is taken as it is, a [str] must be the name of a level
    ([ValueError] otherwise), anything else is a [TypeError]. *)
Definition setLevel (level : pyobj) : M state unit :=
  match level with
  | PyInt n => emit (SetLevel n)
  | PyStr name =>
      match logging_level name with
      | Some n => emit (SetLevel n)
      | None => raise ValueError
      end
  | PyOther => raise TypeError
  end.

Definition _parse_config : M state unit :=
  c <- call LoadYaml (load_yaml env) ;;
  modify (set_config c) ;;
  LOG INFO LoadedConfig ;;
  m <- os_stat_mtime ;;
  modify (set_last_config m) ;;
  try_
    (c <- gets _config ;;
     level <- getattr_logging (default "WARNING"%string (loglevel c)) ;;
     setLevel level)
    (fun e =>
       match e with
       | AttributeError =>
           Some (c <- gets _config ;;
                 name <- getkey (loglevel c) ;;
                 LOG ERROR (UnknownLoglevel name))
       | _ => None
       end).

(** The [config] property. *)
Definition config : M state Config :=
  s_mtime <- os_stat_mtime ;;
  last <- gets _last_config ;;
  (if s_mtime >? last then
     try_ _parse_config
       (fun e =>
          if is_Exception e
          then Some (LOG ERROR (FailedToLoadConfig e))
          else None)
   else ret tt) ;;
  gets _config.

Definition setup : M state unit :=
  modify (set_last_config 0) ;;
  modify (set_config empty_config) ;;
  inb <- socket_socket ;;
  modify (set_inbound inb) ;;
  emit (SetBlocking inb) ;;
  c <- config ;;
  let source := default {| s_host := None; s_port := None |} (source c) in
  let source_addr := (default "0.0.0.0"%string (s_host source),
                      default 2237 (s_port source)) in
  call (Bind inb source_addr) (bind_result env) ;;
  LOG DEBUG (ListeningOn source_addr) ;;
  modify (set_sources []).

(** [{src.ident: src.proxysock for src in self.sources.values()}] *)
Definition proxysocks_of (srcs : dict WSJTXSource) : dict sock :=
  fold_left (fun acc src => dict_set (src_ident src) (proxysock src) acc)
            (dict_values srcs) [].

(** The [try] statement that finds the table entry of a packet received
    from [addr], or makes one. *)
Definition find_source (p : option WSJPacket) (addr : addr)
  : M state (option WSJTXSource) :=
  try_
    (id <- getattr p ident ;;
     srcs <- gets sources ;;
     source <- getitem srcs id ;;
     (* Always keep the endpoint updated in case of close/reopen *)
     let source := set_dest addr source in
     modify (set_sources (dict_set id source srcs)) ;;
     ret (Some source))
    (fun e =>
       match e with
       | KeyError =>
           (* Only record new sources when they heartbeat *)
           Some
             (ty <- getattr p type ;;
              if ty =? WSJTX_HEARTBEAT then
                id <- getattr p ident ;;
                ver <- getattr_opt p version ;;
                rev <- getattr_opt p revision ;;
                LOG INFO (NewSourceFound addr id ver rev) ;;
                id <- getattr p ident ;;
                source <- WSJTXSource__init__ id addr ;;
                id <- getattr p ident ;;
                srcs <- gets sources ;;
                modify (set_sources (dict_set id source srcs)) ;;
                ret (Some source)
              else ret None)
       | _ => None
       end).

(** The body of [for dest in self.config.get('destinations', []):]. *)
Definition forward_body (source : option WSJTXSource) (data : bytes)
    (dest : destination) : M state unit :=
  (* Proxy to all the configured destination consumers *)
  let host := default "127.0.0.1"%string (d_host dest) in
  port <- getkey (d_port dest) ;;
  let name := default (HostPort host port)
                      (option_map Named (d_name dest)) in
  try_
    (ps <- getattr source proxysock ;;
     port <- getkey (d_port dest) ;;
     sendto ps data (host, port))
    (fun e =>
       match e with
       | AttributeError => Some (ret tt) (* No source yet *)
       | _ =>
           if is_socket_error e
           then Some (port <- getkey (d_port dest) ;;
                      LOG WARNING (UnableToSendToPort name port e))
           else None
       end).

(** What follows the [try] statement under
    [if self.inbound in readable:]. *)
Definition forward (p : option WSJPacket) (source : option WSJTXSource)
    (data : bytes) : M state unit :=
  ty <- getattr p type ;;
  id <- getattr p ident ;;
  LOG INFO (ReceivedType ty id) ;;
  c <- config ;;
  for_ (default [] (destinations c)) (forward_body source data).

(** The suite under [if self.inbound in readable:]. *)
Definition inbound_section : M state unit :=
  inb <- gets inbound ;;
  '(data, addr) <- recvfrom inb ;;
  p <- parse data ;;
  source <- find_source p addr ;;
  forward p source data.

(** The body of [for ident, proxysock in proxysocks.items():].  The
    [try] statement of the source is split after its first statement, the
    table look-up, so that [source] is in scope in the handlers; the
    look-up raises nothing that the later clauses catch. *)
Definition reply_body (readable : list sock) (item : pystr * sock)
  : M state unit :=
  let '(_, proxysock) := item in
  if negb (mem_sock proxysock readable) then ret tt
  else
    r <- try_ (x <- recvfrom proxysock ;; ret (Some x))
           (fun e =>
              match e with
              | ConnectionResetError => Some (ret None)
              | _ => None
              end) ;;
    match r with
    | None => ret tt
    | Some (data, addr) =>
        (* Parse the packet to determine the desired WSJ instance and
           send it there *)
        p <- parse data ;;
        found <-
          try_
            (id <- getattr p ident ;;
             srcs <- gets sources ;;
             source <- getitem srcs id ;;
             ret (Some source))
            (fun e =>
               match e with
               | KeyError =>
                   (* Specified an unknown ident (not likely) *)
                   Some (id <- getattr p ident ;;
                         LOG WARNING (UnknownSource (fst addr) id) ;;
                         ret None)
               | _ => None
               end) ;;
        match found with
        | None => ret tt
        | Some source =>
            try_else
              (inb <- gets inbound ;;
               sendto inb data (dest source))
              (fun e =>
                 match e with
                 | KeyError =>
                     Some (id <- getattr p ident ;;
                           LOG WARNING (UnknownSource (fst addr) id))
                 | _ =>
                     if is_socket_error e
                     then Some (LOG WARNING
                                  (UnableToSendTo (dest source) e))
                     else None
                 end)
              (fun _ =>
                 LOG INFO (MessageFromClient (fst addr) (src_ident source)
                                             (dest source)))
        end
    end.

Definition run_one : M state unit :=
  srcs <- gets sources ;;
  let proxysocks := proxysocks_of srcs in
  inb <- gets inbound ;;
  let sockets := inb :: dict_values proxysocks in
  readable <- call (Select sockets) (select_result env) ;;
  (* WSJTX -> consumers *)
  (if mem_sock inb readable then inbound_section else ret tt) ;;
  (* Reply consumer -> WSJTX *)
  for_ proxysocks (reply_body readable).

(** [POSIXQSOForwarder.main]: the loop, run for at most [fuel] cycles;
    it returns when [KeyboardInterrupt] makes it [break]. *)
Fixpoint main_loop (fuel : nat) : M state unit :=
  match fuel with
  | O => fun s => (OutOfFuel, s)
  | S fuel' =>
      stop <- try_ (run_one ;; ret false)
                (fun e =>
                   match e with
                   | KeyboardInterrupt => Some (ret true)
                   | _ => None
                   end) ;;
      if stop then ret tt else config ;; main_loop fuel'
  end.

Definition main (fuel : nat) : M state unit :=
  setup ;; main_loop fuel.
End Forwarder.

(** The process before [main] runs: no socket yet, nothing traced.  The
    attributes are given values here only because the record needs them;
    [setup] assigns each of them. *)
Definition fresh : state :=
  {| _last_config := 0; _config := empty_config; inbound := 0%nat;
     sources := []; trace := []; next_sock := 0%nat |}.

(** ** Notions used to state the properties *)

(** The state after [n] calls of [run_one], whatever their outcome. *)
Fixpoint run_cycles (env : Env) (n : nat) (s : state) : state :=
  match n with
  | O => s
  | S n' => run_cycles env n' (snd (run_one env s))
  end.

(** What a computation yields from the state of a new process; for code
    that neither reads nor writes the state this is all there is to say. *)
Definition outcome {A} (m : M state A) : res A := fst (m fresh).

Definition stateless {A} (m : M state A) : Prop :=
  forall s, m s = (outcome m, s).

(** In the cycle that starts in [s], [select] reports the inbound socket
    readable and [recvfrom] on it answers [data], sent from [a]. *)
Definition arrives (env : Env) (s : state) (data : bytes) (a : addr) : Prop :=
  exists readable,
    select_result env (List.length (trace s)) = Ok readable
    /\ mem_sock (inbound s) readable = true
    /\ recvfrom_result env (S (List.length (trace s))) (inbound s)
       = Ok (data, a).

(** The state in which [run_one] has called [select]. *)
Definition selected (s : state) : state :=
  set_trace
    (trace s ++ [Select (inbound s :: dict_values (proxysocks_of (sources s)))])
    s.

(** [s'] has the table, the inbound socket and the socket counter of [s]. *)
Definition same_table (s s' : state) : Prop :=
  sources s' = sources s /\ inbound s' = inbound s
  /\ next_sock s' = next_sock s.

(** The trace of [s'] is that of [s] followed by events that satisfy [P]. *)
Definition extends_with (P : event -> Prop) (s s' : state) : Prop :=
  exists l, trace s' = trace s ++ l /\ Forall P l.

(** [s'] has the table and the sockets of [s], and its trace is that of
    [s] followed by events that satisfy [P], which may mention the inbound
    socket. *)
Definition frame (P : sock -> event -> Prop) (s s' : state) : Prop :=
  same_table s s' /\ extends_with (P (inbound s)) s s'.

Definition any_event (_ : sock) (_ : event) : Prop := True.

(** No entry is lost, and none changes its identity or its socket. *)
Definition keeps_entries (s s' : state) : Prop :=
  forall id e,
    dict_get id (sources s) = Some e ->
    exists e', dict_get id (sources s') = Some e'
               /\ src_ident e' = src_ident e /\ proxysock e' = proxysock e.

(** ... and the inbound socket is the same. *)
Definition steady (s s' : state) : Prop :=
  keeps_entries s s' /\ inbound s' = inbound s.

Definition not_send (e : event) : Prop :=
  match e with
  | SendTo _ _ _ => False
  | _ => True
  end.

Definition sent_via (k : sock) (e : event) : Prop :=
  match e with
  | SendTo k' _ _ => k' = k
  | _ => True
  end.

(** Events of reading the configuration: no socket is touched. *)
Definition config_event (e : event) : Prop :=
  match e with
  | Log _ _ | SetLevel _ | Stat | LoadYaml => True
  | _ => False
  end.

(** The header of a datagram: magic, schema, type, all right or not. *)
Definition header (magic schema number : Z) : bytes :=
  bytes_of [magic / 16777216; magic / 65536; magic / 256; magic;
            schema / 16777216; schema / 65536; schema / 256; schema;
            number / 16777216; number / 65536; number / 256; number].

(** A length-prefixed ASCII string. *)
Definition prefixed (s : string) : bytes :=
  let n := len (ascii_bytes s) in
  bytes_of [n / 16777216; n / 65536; n / 256; n] ++ ascii_bytes s.

(** ** Datagrams and worlds used as examples *)

(** The heartbeat of the specification's example: identity ["FT-101"],
    max-schema 3, version ["2.0"], revision ["abc"]. *)
Definition heartbeat_FT101 : bytes :=
  header 0xADBCCBDA 2 0 ++ prefixed "FT-101" ++ bytes_of [0; 0; 0; 3]
  ++ prefixed "2.0" ++ prefixed "abc".


Definition parsed_status_FT101 : WSJPacket :=
  {| type := 1; ident := str_of "FT-101"; version := None; revision := None;
     max_schema := None |}.

(** A status packet (type 1) of the same station. *)
Definition status_FT101 : bytes :=
  header 0xADBCCBDA 2 1 ++ prefixed "FT-101" ++ bytes_of [1; 2; 3].

(** Twelve bytes with a wrong magic. *)
Definition bad_magic : bytes := header 0xDEADBEEF 2 1.

(** A right header and a wrong schema. *)
Definition bad_schema : bytes := header 0xADBCCBDA 3 1 ++ prefixed "FT-101".

(** The identity announces ten bytes; two are there. *)
Definition overrun_ident : bytes :=
  header 0xADBCCBDA 2 1 ++ bytes_of [0; 0; 0; 10] ++ ascii_bytes "AB".

(** The datagram ends inside the length prefix of the identity. *)
Definition short_prefix : bytes :=
  header 0xADBCCBDA 2 1 ++ bytes_of [0; 0; 0].

Definition addr_A : addr := ("192.0.2.1"%string, 50000).
Definition addr_B : addr := ("192.0.2.1"%string, 50001).

Definition one_destination : Config :=
  {| loglevel := Some "INFO"%string; source := None;
     destinations :=
       Some [{| d_host := None; d_port := Some 2333; d_name := None |}] |}.

(** Some of what the [logging] module of CPython 3 holds besides its
    level constants: the functions [debug] and [info], the class [Logger],
    the format string [BASIC_FORMAT] and the flag [raiseExceptions]. *)
Definition logging_names (name : string) : option pyobj :=
  if String.eqb name "debug" then Some PyOther
  else if String.eqb name "info" then Some PyOther
  else if String.eqb name "Logger" then Some PyOther
  else if String.eqb name "BASIC_FORMAT"
  then Some (PyStr "%(levelname)s:%(name)s:%(message)s")
  else if String.eqb name "raiseExceptions" then Some (PyInt 1)
  else None.

(** A world in which nothing arrives and every call succeeds. *)
Definition quiet (c : Config) : Env :=
  {| stat_mtime := fun _ => Ok 1;
     load_yaml := fun _ => Ok c;
     bind_result := fun _ => Ok tt;
     select_result := fun _ => Ok [];
     recvfrom_result := fun _ _ => Err OSError;
     sendto_result := fun _ _ _ _ => Ok tt;
     logging_other := logging_names |}.

(** A world in which, at every cycle, the sockets of [ready] are readable
    and hold [data], sent from [a]. *)
Definition arriving (c : Config) (ready : list sock) (data : bytes)
    (a : addr) : Env :=
  {| stat_mtime := fun _ => Ok 1;
     load_yaml := fun _ => Ok c;
     bind_result := fun _ => Ok tt;
     select_result := fun _ => Ok ready;
     recvfrom_result := fun _ _ => Ok (data, a);
     sendto_result := fun _ _ _ _ => Ok tt;
     logging_other := logging_names |}.

(** A world in which the inbound socket is always readable: up to the
    twelfth event it holds the heartbeat of FT-101, sent from [addr_A], and
    from then on the status packet of FT-101, sent from [addr_B]. *)
Definition reopening : Env :=
  {| stat_mtime := fun _ => Ok 1;
     load_yaml := fun _ => Ok one_destination;
     bind_result := fun _ => Ok tt;
     select_result := fun _ => Ok [0%nat];
     recvfrom_result :=
       fun t _ => if (t <? 12)%nat then Ok (heartbeat_FT101, addr_A)
                  else Ok (status_FT101, addr_B);
     sendto_result := fun _ _ _ _ => Ok tt;
     logging_other := logging_names |}.

(** The forwarder after [setup] in a quiet world. *)
Definition ready_state : state := snd (setup (quiet one_destination) fresh).

(** ... and after the heartbeat of FT-101 has arrived from [addr_A]. *)
Definition discovered_state : state :=
  snd (run_one (arriving one_destination [0%nat] heartbeat_FT101 addr_A)
         ready_state).

(** ** Further notions *)

(** The four bytes of a 32-bit big-endian integer. *)
Definition be32 (n : Z) : bytes :=
  bytes_of [n / 16777216; n / 65536; n / 256; n].

(** A datagram of type [number] whose identity is the byte string [idb],
    followed by a payload the forwarder does not look at. *)
Definition opaque_datagram (number : Z) (idb payload : bytes) : bytes :=
  header 0xADBCCBDA 2 number ++ be32 (len idb) ++ idb ++ payload.

(** The datagrams sent, in order: socket, bytes, address. *)
Fixpoint sends (tr : list event) : list (sock * bytes * addr) :=
  match tr with
  | [] => []
  | SendTo k data a :: tr' => (k, data, a) :: sends tr'
  | _ :: tr' => sends tr'
  end.

(** Where a destination with a port is: host (127.0.0.1 when absent) and
    port. *)
Definition target (d : destination) : addr :=
  (default "127.0.0.1"%string (d_host d), default 0 (d_port d)).

(** Every entry is filed under its own identity, has a socket that was
    created before and is not the inbound socket, no identity and no
    socket occurs twice, and the inbound socket was created before. *)
Definition table_ok (s : state) : Prop :=
  Forall (fun item => src_ident (snd item) = fst item
                      /\ (proxysock (snd item) < next_sock s)%nat
                      /\ proxysock (snd item) <> inbound s)
         (sources s)
  /\ NoDup (dict_keys (sources s))
  /\ NoDup (map proxysock (dict_values (sources s)))
  /\ (inbound s < next_sock s)%nat.

End QsoFwd.

(* ===================================================================== *)
(** * flrigproxy.py *)
(* ===================================================================== *)

Module FlRigProxy.

Inductive level := DEBUG | INFO | ERROR.

(** An argument of the command line of rigctlcom: a literal, ['-R%s'] of
    the serial device, or ['-r%s:%i'] of the rendezvous address. *)
Inductive arg :=
| Lit (s : string)
| ArgR (serial : string)
| Argr (a : addr).

Inductive log_msg :=
| Stoppped
| StartedThread
| SocketReset (e : exn)
| UnexpectedFailure (e : exn)
| ClosingRigctlcomSocket
| StoppingRigctlcom
| RigctlcomIsDead
| ClosingFlrigSocket
| ConnectedToFlrig (port : Z)
| SettingUpRigctlcom
| SpawningRigctlcom (cmd : list arg)
| RigctlConnected.

Inductive event :=
| Log (lvl : level) (msg : log_msg)
| NewSocket (s : sock)
| Connect (s : sock) (a : addr)
| BindListen (s : sock) (a : addr)
| GetSockName (s : sock)
| Popen (p : proc) (cmd : list arg)
| Accept (listener s : sock)
| Close (s : sock)
| Kill (p : proc)
| Wait (p : proc)
| Select (socks : list sock)
| Recv (s : sock)
| Send (s : sock) (data : bytes)
| ThreadStart
| Join (timeout : Z).

(** The attributes of a [RigProxy], then the trace and the counters of
    what was created.  [thread] is [None] as long as the object has no
    such attribute: [__init__] assigns [_thread], and only [start]
    assigns [thread]. *)
Record state := {
  running : bool;
  _flrig_sock : option sock;
  _rigctlcom_sock : option sock;
  _rigctlcom : option proc;
  _thread : option nat;
  thread : option nat;
  trace : list event;
  next_sock : sock;
  next_proc : proc
}.

Definition set_running (b : bool) (s : state) : state :=
  {| running := b; _flrig_sock := _flrig_sock s;
     _rigctlcom_sock := _rigctlcom_sock s; _rigctlcom := _rigctlcom s;
     _thread := _thread s; thread := thread s; trace := trace s;
     next_sock := next_sock s; next_proc := next_proc s |}.
Definition set_flrig_sock (o : option sock) (s : state) : state :=
  {| running := running s; _flrig_sock := o;
     _rigctlcom_sock := _rigctlcom_sock s; _rigctlcom := _rigctlcom s;
     _thread := _thread s; thread := thread s; trace := trace s;
     next_sock := next_sock s; next_proc := next_proc s |}.
Definition set_rigctlcom_sock (o : option sock) (s : state) : state :=
  {| running := running s; _flrig_sock := _flrig_sock s;
     _rigctlcom_sock := o; _rigctlcom := _rigctlcom s;
     _thread := _thread s; thread := thread s; trace := trace s;
     next_sock := next_sock s; next_proc := next_proc s |}.
Definition set_rigctlcom (o : option proc) (s : state) : state :=
  {| running := running s; _flrig_sock := _flrig_sock s;
     _rigctlcom_sock := _rigctlcom_sock s; _rigctlcom := o;
     _thread := _thread s; thread := thread s; trace := trace s;
     next_sock := next_sock s; next_proc := next_proc s |}.
Definition set_thread (o : option nat) (s : state) : state :=
  {| running := running s; _flrig_sock := _flrig_sock s;
     _rigctlcom_sock := _rigctlcom_sock s; _rigctlcom := _rigctlcom s;
     _thread := _thread s; thread := o; trace := trace s;
     next_sock := next_sock s; next_proc := next_proc s |}.
Definition set_trace (t : list event) (s : state) : state :=
  {| running := running s; _flrig_sock := _flrig_sock s;
     _rigctlcom_sock := _rigctlcom_sock s; _rigctlcom := _rigctlcom s;
     _thread := _thread s; thread := thread s; trace := t;
     next_sock := next_sock s; next_proc := next_proc s |}.
Definition set_next_sock (n : sock) (s : state) : state :=
  {| running := running s; _flrig_sock := _flrig_sock s;
     _rigctlcom_sock := _rigctlcom_sock s; _rigctlcom := _rigctlcom s;
     _thread := _thread s; thread := thread s; trace := trace s;
     next_sock := n; next_proc := next_proc s |}.
Definition set_next_proc (n : proc) (s : state) : state :=
  {| running := running s; _flrig_sock := _flrig_sock s;
     _rigctlcom_sock := _rigctlcom_sock s; _rigctlcom := _rigctlcom s;
     _thread := _thread s; thread := thread s; trace := trace s;
     next_sock := next_sock s; next_proc := n |}.

(** [RigProxy.__init__] *)
Definition __init__ : state :=
  {| running := true; _flrig_sock := None; _rigctlcom_sock := None;
     _rigctlcom := None; _thread := None; thread := None; trace := [];
     next_sock := 0%nat; next_proc := 0%nat |}.

(** The answers of the outside world, by the number of events before the
    call.  [recv] answers the bytes read, empty when the peer has closed
    in an orderly way; [send] answers the number of bytes taken. *)
Record Env := {
  connect_result : nat -> answer unit;
  listen_result : nat -> answer unit;
  getsockname_result : nat -> answer addr;
  popen_result : nat -> answer unit;
  accept_result : nat -> answer unit;
  select_result : nat -> answer (list sock);
  recv_result : nat -> sock -> answer bytes;
  send_result : nat -> sock -> bytes -> answer Z
}.

Definition emit (e : event) : M state unit :=
  modify (fun s => set_trace (trace s ++ [e]) s).

Definition call {A} (e : event) (a : nat -> answer A) : M state A :=
  fun s =>
    let s' := set_trace (trace s ++ [e]) s in
    match a (List.length (trace s)) with
    | Ok x => (Ret x, s')
    | Err ex => (Raise ex, s')
    end.

Definition log (lvl : level) (msg : log_msg) : M state unit :=
  emit (Log lvl msg).

Definition socket_socket : M state sock :=
  n <- gets next_sock ;;
  modify (set_next_sock (S n)) ;;
  emit (NewSocket n) ;;
  ret n.

(** A method call on an attribute that may be [None]. *)
Definition getattr {A} (o : option A) : M state A :=
  match o with
  | Some a => ret a
  | None => raise AttributeError
  end.

Definition truthy {A} (o : option A) : bool :=
  match o with
  | Some _ => true
  | None => false
  end.

(** [x in r], where [x] may be [None] and [r] is a list of sockets. *)
Definition mem_opt (x : option sock) (r : list sock) : bool :=
  match x with
  | Some s => existsb (Nat.eqb s) r
  | None => false
  end.

Fixpoint all_some {A} (l : list (option A)) : option (list A) :=
  match l with
  | [] => Some []
  | Some a :: l' => option_map (cons a) (all_some l')
  | None :: _ => None
  end.

Section Proxy.
(** [self.port], [self.serial] and [self.config['rigctlcom']]. *)
Variable port : Z.
Variable serial : string.
Variable rigctlcom_exe : string.
Variable env : Env.

Definition stop : M state unit :=
  modify (set_running false) ;;
  t <- gets thread ;;
  _ <- getattr t ;;
  emit (Join 1) ;;
  log INFO Stoppped.

Definition start : M state unit :=
  modify (set_thread (Some 0%nat)) ;;
  emit ThreadStart ;;
  log INFO StartedThread.

Definition _reset : M state unit :=
  rs <- gets _rigctlcom_sock ;;
  match rs with
  | Some s =>
      log DEBUG ClosingRigctlcomSocket ;;
      emit (Close s) ;;
      modify (set_rigctlcom_sock None)
  | None => ret tt
  end ;;
  rc <- gets _rigctlcom ;;
  match rc with
  | Some p =>
      log INFO StoppingRigctlcom ;;
      emit (Kill p) ;;
      emit (Wait p) ;;
      log DEBUG RigctlcomIsDead ;;
      modify (set_rigctlcom None)
  | None => ret tt
  end ;;
  fs <- gets _flrig_sock ;;
  match fs with
  | Some s =>
      log DEBUG ClosingFlrigSocket ;;
      emit (Close s) ;;
      modify (set_flrig_sock None)
  | None => ret tt
  end.

Definition _connect_flrig : M state unit :=
  s <- socket_socket ;;
  modify (set_flrig_sock (Some s)) ;;
  call (Connect s ("127.0.0.1"%string, port)) (connect_result env) ;;
  log INFO (ConnectedToFlrig port).

Definition _spawn_rigctlcom : M state unit :=
  log DEBUG SettingUpRigctlcom ;;
  (* Create a temporary listen socket on a random localhost port *)
  listen_sock <- socket_socket ;;
  call (BindListen listen_sock ("127.0.0.1"%string, 0)) (listen_result env) ;;
  (* Spawn rigctlcom to connect to that port *)
  name <- call (GetSockName listen_sock) (getsockname_result env) ;;
  let cmd := [Lit rigctlcom_exe; Lit "-m4"; Lit "-S115200"; ArgR serial;
              Argr name] in
  log DEBUG (SpawningRigctlcom cmd) ;;
  p <- gets next_proc ;;
  call (Popen p cmd) (popen_result env) ;;
  modify (set_next_proc (S p)) ;;
  modify (set_rigctlcom (Some p)) ;;
  (* Wait for rigctlcom to connect to us *)
  n <- gets next_sock ;;
  call (Accept listen_sock n) (accept_result env) ;;
  modify (set_next_sock (S n)) ;;
  modify (set_rigctlcom_sock (Some n)) ;;
  log INFO RigctlConnected ;;
  (* We no longer need the parent listen socket *)
  emit (Close listen_sock).

(** [select.select(socks, [], socks, 0.25)]: a [None] in [socks] is a
    [TypeError]. *)
Definition select (socks : list (option sock)) : M state (list sock) :=
  match all_some socks with
  | Some l => call (Select l) (select_result env)
  | None => raise TypeError
  end.

Definition recv (s : sock) : M state bytes :=
  call (Recv s) (fun t => recv_result env t s).

Definition send (s : sock) (data : bytes) : M state Z :=
  call (Send s data) (fun t => send_result env t s data).

(** One turn of the [while True:] of [_proxy_loop]. *)
Definition proxy_turn (socks : list (option sock)) : M state unit :=
  r <- select socks ;;
  rs <- gets _rigctlcom_sock ;;
  (if mem_opt rs r then
     rs <- gets _rigctlcom_sock ;;
     rs <- getattr rs ;;
     data <- recv rs ;;
     fs <- gets _flrig_sock ;;
     fs <- getattr fs ;;
     send fs data ;; ret tt
   else ret tt) ;;
  fs <- gets _flrig_sock ;;
  (if mem_opt fs r then
     fs <- gets _flrig_sock ;;
     fs <- getattr fs ;;
     data <- recv fs ;;
     rs <- gets _rigctlcom_sock ;;
     rs <- getattr rs ;;
     send rs data ;; ret tt
   else ret tt).

Fixpoint proxy_turns (fuel : nat) (socks : list (option sock))
  : M state unit :=
  match fuel with
  | O => fun s => (OutOfFuel, s)
  | S fuel' => proxy_turn socks ;; proxy_turns fuel' socks
  end.

(** [_proxy_loop], run for at most [fuel] turns.  The loop has no exit
    of its own: it is left only by an exception. *)
Definition _proxy_loop (fuel : nat) : M state unit :=
  rs <- gets _rigctlcom_sock ;;
  fs <- gets _flrig_sock ;;
  proxy_turns fuel [rs; fs].

(** The [except] clauses of [thread_loop], in order. *)
Definition on_exception (e : exn) : option (M state unit) :=
  match e with
  | ConnectionRefusedError => Some (ret tt)
  | _ =>
      if is_socket_error e then
        Some (log DEBUG (SocketReset e) ;; _reset)
      else if is_Exception e then
        Some (log ERROR (UnexpectedFailure e) ;; _reset)
      else None
  end.

(** The [try] suite of [thread_loop]. *)
Definition attempt (fuel : nat) : M state unit :=
  _connect_flrig ;;
  fs <- gets _flrig_sock ;;
  rc <- gets _rigctlcom ;;
  (if truthy fs && negb (truthy rc) then _spawn_rigctlcom else ret tt) ;;
  _proxy_loop fuel.

(** [thread_loop]; the fuel bounds the turns of both loops together. *)
Fixpoint thread_loop (fuel : nat) : M state unit :=
  match fuel with
  | O => fun s => (OutOfFuel, s)
  | S fuel' =>
      r <- gets running ;;
      if r then
        try_ (attempt fuel') on_exception ;;
        thread_loop fuel'
      else ret tt
  end.
End Proxy.

(** ** Notions used to state the properties *)

(** The Relaying state: both sockets and the child process are there. *)
Definition relaying (s : state) : Prop :=
  exists f r p,
    _flrig_sock s = Some f /\ _rigctlcom_sock s = Some r
    /\ _rigctlcom s = Some p.

(** After a reset nothing is held. *)
Definition released (s : state) : Prop :=
  _flrig_sock s = None /\ _rigctlcom_sock s = None /\ _rigctlcom s = None.

(** ** Worlds used as examples *)

(** Every call succeeds and no socket ever becomes readable. *)
Definition idle : Env :=
  {| connect_result := fun _ => Ok tt;
     listen_result := fun _ => Ok tt;
     getsockname_result := fun _ => Ok ("127.0.0.1"%string, 40000);
     popen_result := fun _ => Ok tt;
     accept_result := fun _ => Ok tt;
     select_result := fun _ => Ok [];
     recv_result := fun _ _ => Ok [];
     send_result := fun _ _ data => Ok (len data) |}.

(** The bridge child has closed its end in an orderly way: its socket
    (the third one created) is always readable and reads as empty. *)
Definition bridge_closed : Env :=
  {| connect_result := fun _ => Ok tt;
     listen_result := fun _ => Ok tt;
     getsockname_result := fun _ => Ok ("127.0.0.1"%string, 40000);
     popen_result := fun _ => Ok tt;
     accept_result := fun _ => Ok tt;
     select_result := fun _ => Ok [2%nat];
     recv_result := fun _ _ => Ok [];
     send_result := fun _ _ data => Ok (len data) |}.

(** The bridge child has gone away abruptly: reading its socket fails. *)
Definition bridge_reset : Env :=
  {| connect_result := fun _ => Ok tt;
     listen_result := fun _ => Ok tt;
     getsockname_result := fun _ => Ok ("127.0.0.1"%string, 40000);
     popen_result := fun _ => Ok tt;
     accept_result := fun _ => Ok tt;
     select_result := fun _ => Ok [2%nat];
     recv_result := fun _ _ => Err ConnectionResetError;
     send_result := fun _ _ data => Ok (len data) |}.

(** A proxy that has been started, ... *)
Definition started_state : state := snd (start __init__).

(** ... and one that has connected to flrig (socket 0) and accepted the
    bridge child (process 0, socket 2). *)
Definition relaying_state : state :=
  snd ((_connect_flrig 12345 idle ;;
        _spawn_rigctlcom "/dev/ttyS0" "rigctlcom" idle) started_state).

(** ** Further notions *)

(** The byte strings passed to [send] on socket [k], in order. *)
Fixpoint chunks_sent (k : sock) (tr : list event) : list bytes :=
  match tr with
  | [] => []
  | Send k' data :: tr' =>
      if Nat.eqb k' k then data :: chunks_sent k tr' else chunks_sent k tr'
  | _ :: tr' => chunks_sent k tr'
  end.

(** The byte strings [recv] returned on socket [k], in order, for a piece
    of trace whose first event is the [t]-th of the process. *)
Fixpoint chunks_read (env : Env) (k : sock) (t : nat) (tr : list event)
  : list bytes :=
  match tr with
  | [] => []
  | Recv k' :: tr' =>
      if Nat.eqb k' k then
        match recv_result env t k with
        | Ok data => data :: chunks_read env k (S t) tr'
        | Err _ => chunks_read env k (S t) tr'
        end
      else chunks_read env k (S t) tr'
  | _ :: tr' => chunks_read env k (S t) tr'
  end.

(** The events of an attempt to connect. *)
Definition connect_attempt (e : event) : Prop :=
  match e with
  | NewSocket _ | Connect _ _ => True
  | _ => False
  end.

(** flrig is not running: every [connect] is refused. *)
Definition refusing : Env :=
  {| connect_result := fun _ => Err ConnectionRefusedError;
     listen_result := fun _ => Ok tt;
     getsockname_result := fun _ => Ok ("127.0.0.1"%string, 40000);
     popen_result := fun _ => Ok tt;
     accept_result := fun _ => Ok tt;
     select_result := fun _ => Ok [];
     recv_result := fun _ _ => Ok [];
     send_result := fun _ _ data => Ok (len data) |}.

(** The bridge child never connects back: [accept] fails. *)
Definition never_accepting : Env :=
  {| connect_result := fun _ => Ok tt;
     listen_result := fun _ => Ok tt;
     getsockname_result := fun _ => Ok ("127.0.0.1"%string, 40000);
     popen_result := fun _ => Ok tt;
     accept_result := fun _ => Err OSError;
     select_result := fun _ => Ok [];
     recv_result := fun _ _ => Ok [];
     send_result := fun _ _ data => Ok (len data) |}.

(** Traffic from the bridge child: its socket is always readable and
    reads as the three bytes 1 2 3. *)
Definition bridge_talking : Env :=
  {| connect_result := fun _ => Ok tt;
     listen_result := fun _ => Ok tt;
     getsockname_result := fun _ => Ok ("127.0.0.1"%string, 40000);
     popen_result := fun _ => Ok tt;
     accept_result := fun _ => Ok tt;
     select_result := fun _ => Ok [2%nat];
     recv_result := fun _ _ => Ok (bytes_of [1; 2; 3]);
     send_result := fun _ _ data => Ok (len data) |}.

End FlRigProxy.

(* ===================================================================== *)
(** * Facts about the monad *)
(* ===================================================================== *)

Unset Implicit Arguments.

Section MonadFacts.
Variable St : Type.
Variable R : St -> St -> Prop.
Hypothesis R_refl : forall s, R s s.
Hypothesis R_trans : forall a b c, R a b -> R b c -> R a c.

Lemma post_ret A (a : A) : post R (ret a).
Proof. intro s. apply R_refl. Qed.

Lemma post_raise A e : post R (@raise St A e).
Proof. intro s. apply R_refl. Qed.

Lemma post_gets A (f : St -> A) : post R (gets f).
Proof. intro s. apply R_refl. Qed.

Lemma post_bind A B (m : M St A) (k : A -> M St B) :
  post R m -> (forall a, post R (k a)) -> post R (bind m k).
Proof.
  intros Hm Hk s. unfold bind. specialize (Hm s).
  destruct (m s) as [[a | e |] s1]; simpl in *; auto.
  eapply R_trans; [exact Hm | apply Hk].
Qed.

Lemma post_try_else A B (body : M St A) h (orelse : A -> M St B) :
  post R body ->
  (forall e k, h e = Some k -> post R k) ->
  (forall a, post R (orelse a)) ->
  post R (try_else body h orelse).
Proof.
  intros Hb Hh Ho s. unfold try_else. specialize (Hb s).
  destruct (body s) as [[a | e |] s1]; simpl in *; auto.
  - eapply R_trans; [exact Hb | apply Ho].
  - destruct (h e) as [k |] eqn:E; simpl; auto.
    eapply R_trans; [exact Hb | eapply Hh; eauto].
Qed.

Lemma post_try A (body : M St A) h :
  post R body ->
  (forall e k, h e = Some k -> post R k) ->
  post R (try_ body h).
Proof.
  intros. apply post_try_else; auto.
Qed.

Lemma post_for A (xs : list A) (body : A -> M St unit) :
  (forall x, post R (body x)) -> post R (for_ xs body).
Proof.
  intro Hb. induction xs as [| x xs IH]; simpl.
  - apply post_ret.
  - apply post_bind; auto.
Qed.
End MonadFacts.

Lemma bind_Ret {St A B} (m : M St A) (k : A -> M St B) s a s1 :
  m s = (Ret a, s1) -> bind m k s = k a s1.
Proof. intro H. unfold bind. rewrite H. reflexivity. Qed.

Lemma bind_Raise {St A B} (m : M St A) (k : A -> M St B) s e s1 :
  m s = (Raise e, s1) -> bind m k s = (Raise e, s1).
Proof. intro H. unfold bind. rewrite H. reflexivity. Qed.

Lemma bind_OutOfFuel {St A B} (m : M St A) (k : A -> M St B) s s1 :
  m s = (OutOfFuel, s1) -> bind m k s = (OutOfFuel, s1).
Proof. intro H. unfold bind. rewrite H. reflexivity. Qed.

(* ===================================================================== *)
(** * Facts about slices and the codec *)
(* ===================================================================== *)

Lemma len_nonneg {A} (l : list A) : 0 <= len l.
Proof. unfold len. lia. Qed.

Lemma len_cons {A} (x : A) l : len (x :: l) = len l + 1.
Proof. unfold len. simpl List.length. lia. Qed.

Lemma takeZ_all {A} (l : list A) n : len l <= n -> takeZ n l = l.
Proof.
  revert n. induction l as [| x l IH]; intros n H; cbn [takeZ]; auto.
  rewrite len_cons in H. pose proof (len_nonneg l).
  destruct (Z.leb_spec n 0); [lia |].
  f_equal. apply IH. lia.
Qed.

Lemma len_takeZ {A} (l : list A) n :
  len (takeZ n l) = Z.max 0 (Z.min n (len l)).
Proof.
  revert n. induction l as [| x l IH]; intros n; cbn [takeZ].
  - change (len (@nil A)) with 0. lia.
  - pose proof (len_nonneg l). destruct (Z.leb_spec n 0).
    + change (len (@nil A)) with 0. rewrite len_cons. lia.
    + rewrite !len_cons, IH. lia.
Qed.

Lemma len_dropZ {A} (l : list A) n :
  0 <= n -> len (dropZ n l) = Z.max 0 (len l - n).
Proof.
  revert n. induction l as [| x l IH]; intros n Hn; cbn [dropZ].
  - change (len (@nil A)) with 0. lia.
  - pose proof (len_nonneg l). destruct (Z.leb_spec n 0).
    + rewrite len_cons. lia.
    + rewrite IH, len_cons by lia. lia.
Qed.

Lemma len_slice {A} (l : list A) a b :
  0 <= a -> len (slice l a b) = Z.max 0 (Z.min (b - a) (len l - a)).
Proof.
  intro Ha. unfold slice. rewrite len_takeZ, len_dropZ by assumption. lia.
Qed.

(** A slice that reaches the end of the buffer is what is left of it. *)
Lemma slice_to_end {A} (l : list A) a b :
  0 <= a <= b -> len l <= b -> slice l a b = dropZ a l.
Proof.
  intros Ha Hb. unfold slice. apply takeZ_all.
  rewrite len_dropZ by lia. lia.
Qed.

(** [struct.unpack('>I', ...)] refuses a slice cut short by the end of the
    buffer. *)
Lemma unpack_I_short (buffer : bytes) offset :
  0 <= offset -> len buffer < offset + 4 ->
  unpack_I (slice buffer offset (offset + 4)) = None.
Proof.
  intros Ho Hl. unfold unpack_I. rewrite len_slice by assumption.
  destruct (Z.eqb_spec (Z.max 0 (Z.min (offset + 4 - offset)
                                       (len buffer - offset))) 4); [lia | auto].
Qed.

Lemma unpack_III_Some (message : bytes) t :
  unpack_III (slice message 0 (3 * 4)) = Some t -> 12 <= len message.
Proof.
  unfold unpack_III. rewrite len_slice by lia.
  destruct (Z.eqb_spec (Z.max 0 (Z.min (3 * 4 - 0) (len message - 0))) 12);
    [lia | discriminate].
Qed.

(* ===================================================================== *)
(** * Facts about dictionaries *)
(* ===================================================================== *)

Lemma pystr_eqb_eq a b : pystr_eqb a b = true <-> a = b.
Proof.
  revert b. induction a as [| x a IH]; intros [| y b]; cbn [pystr_eqb];
    try (split; [discriminate | discriminate]); [tauto |].
  rewrite andb_true_iff, Z.eqb_eq, IH. split.
  - intros [-> ->]. reflexivity.
  - intro H. injection H as -> ->. auto.
Qed.

Lemma pystr_eqb_refl a : pystr_eqb a a = true.
Proof. apply pystr_eqb_eq. reflexivity. Qed.

Section DictFacts.
Variable V : Type.
Implicit Types (d : dict V) (k : pystr) (v : V).

Lemma dict_get_set_same k v d : dict_get k (dict_set k v d) = Some v.
Proof.
  induction d as [| [k' v'] d IH]; cbn [dict_set dict_get].
  - rewrite pystr_eqb_refl. reflexivity.
  - destruct (pystr_eqb k k') eqn:E; cbn [dict_get]; rewrite E; auto.
Qed.

Lemma dict_get_set_other k k0 v d :
  k0 <> k -> dict_get k0 (dict_set k v d) = dict_get k0 d.
Proof.
  intro Hne. induction d as [| [k' v'] d IH]; cbn [dict_set dict_get].
  - destruct (pystr_eqb k0 k) eqn:E; [| reflexivity].
    apply pystr_eqb_eq in E. contradiction.
  - destruct (pystr_eqb k k') eqn:E; cbn [dict_get].
    + apply pystr_eqb_eq in E. subst k'.
      destruct (pystr_eqb k0 k) eqn:E0; [| reflexivity].
      apply pystr_eqb_eq in E0. contradiction.
    + rewrite IH. reflexivity.
Qed.

(** Assigning to a key that is absent appends one item ... *)
Lemma dict_set_absent k v d :
  dict_get k d = None -> dict_set k v d = d ++ [(k, v)].
Proof.
  induction d as [| [k' v'] d IH]; cbn [dict_set dict_get app]; auto.
  destruct (pystr_eqb k k'); [discriminate |].
  intro H. rewrite IH by assumption. reflexivity.
Qed.

End DictFacts.

(* ===================================================================== *)
(** * The packet forwarder *)
(* ===================================================================== *)

Module QsoFwdFacts.
Import QsoFwd.

(** ** Code that does not touch the state *)

Lemma stateless_ret A (a : A) : stateless (ret a).
Proof. intro s. reflexivity. Qed.

Lemma stateless_raise A e : stateless (@raise state A e).
Proof. intro s. reflexivity. Qed.

Lemma stateless_bind A B (m : M state A) (k : A -> M state B) :
  stateless m -> (forall a, stateless (k a)) -> stateless (bind m k).
Proof.
  intros Hm Hk s. unfold outcome, bind.
  rewrite (Hm s), (Hm fresh).
  destruct (outcome m) as [a | e |]; try reflexivity.
  rewrite (Hk a s), (Hk a fresh). reflexivity.
Qed.

Lemma outcome_bind A B (m : M state A) (k : A -> M state B) :
  stateless m ->
  outcome (bind m k) =
  match outcome m with
  | Ret a => outcome (k a)
  | Raise e => Raise e
  | OutOfFuel => OutOfFuel
  end.
Proof.
  intros Hm. unfold outcome at 1. unfold bind. rewrite (Hm fresh).
  destruct (outcome m); reflexivity.
Qed.

Lemma stateless_struct_unpack_I bs : stateless (struct_unpack_I bs).
Proof.
  unfold struct_unpack_I.
  destruct (unpack_I bs); [apply stateless_ret | apply stateless_raise].
Qed.

Lemma stateless_decode bs : stateless (decode bs).
Proof.
  unfold decode.
  destruct (utf8_decode bs); [apply stateless_ret | apply stateless_raise].
Qed.

Lemma stateless_parse_string buffer offset :
  stateless (parse_string buffer offset).
Proof.
  unfold parse_string. apply stateless_bind.
  - apply stateless_struct_unpack_I.
  - intro size. apply stateless_decode.
Qed.

Lemma stateless_parse_type_0 message offset :
  stateless (parse_type_0 message offset).
Proof.
  unfold parse_type_0.
  repeat (apply stateless_bind;
          [first [apply stateless_struct_unpack_I
                 | apply stateless_parse_string] | intro]).
  apply stateless_ret.
Qed.

(** What [parse_string] yields, by cases. *)
Lemma parse_string_outcome buffer offset :
  outcome (parse_string buffer offset) =
  match unpack_I (slice buffer offset (offset + 4)) with
  | None => Raise StructError
  | Some size =>
      match utf8_decode (slice buffer (offset + 4) (offset + 4 + size)) with
      | Some s => Ret s
      | None => Raise UnicodeDecodeError
      end
  end.
Proof.
  unfold parse_string.
  rewrite outcome_bind by apply stateless_struct_unpack_I.
  unfold struct_unpack_I, decode.
  destruct (unpack_I _) as [size |]; [| reflexivity].
  unfold outcome at 1. cbn [ret fst].
  destruct (utf8_decode _); reflexivity.
Qed.

(** The packet [parse] builds from a type, an identity and the properties
    of a heartbeat. *)
Lemma parse_unfold message s :
  parse message s =
  match unpack_III (slice message 0 (3 * 4)) with
  | None => (Raise StructError, s)
  | Some (magic, schema, number) =>
      if negb (magic =? 0xADBCCBDA) then
        (Ret None, set_trace (trace s ++ [Log ERROR (InvalidMagic magic)]) s)
      else if negb (schema =? 2) then
        (Ret None,
         set_trace (trace s ++ [Log ERROR (InvalidSchema schema)]) s)
      else
        (match outcome (parse_string message (3 * 4)) with
         | Ret id =>
             match (if number =? 0
                    then outcome (parse_type_0 message (4 * 4 + len id))
                    else Ret no_props) with
             | Ret pr =>
                 Ret (Some {| type := number; ident := id;
                              version := props_version pr;
                              revision := props_revision pr;
                              max_schema := props_max_schema pr |})
             | Raise e => Raise e
             | OutOfFuel => OutOfFuel
             end
         | Raise e => Raise e
         | OutOfFuel => OutOfFuel
         end, s)
  end.
Proof.
  unfold parse, struct_unpack_III.
  destruct (unpack_III _) as [[[magic schema] number] |]; [| reflexivity].
  unfold bind at 1. cbn [ret].
  destruct (negb (magic =? 0xADBCCBDA)); [reflexivity |].
  destruct (negb (schema =? 2)); [reflexivity |].
  unfold bind at 1.
  rewrite (stateless_parse_string message (3 * 4) s).
  destruct (outcome (parse_string message (3 * 4))) as [id | e |];
    try reflexivity.
  unfold bind at 1.
  destruct (number =? 0).
  - rewrite (stateless_parse_type_0 message (4 * 4 + len id) s).
    destruct (outcome (parse_type_0 _ _)); reflexivity.
  - reflexivity.
Qed.

(** The result of [parse] does not depend on the state ... *)
Lemma parse_fst message s : fst (parse message s) = outcome (parse message).
Proof.
  unfold outcome. rewrite (parse_unfold message s), (parse_unfold message fresh).
  destruct (unpack_III _) as [[[magic schema] number] |]; [| reflexivity].
  destruct (negb (magic =? 0xADBCCBDA)); [reflexivity |].
  destruct (negb (schema =? 2)); reflexivity.
Qed.

(** ... a packet is returned without a trace ... *)
Lemma parse_Some message s p :
  outcome (parse message) = Ret (Some p) -> parse message s = (Ret (Some p), s).
Proof.
  unfold outcome. rewrite (parse_unfold message s), (parse_unfold message fresh).
  destruct (unpack_III _) as [[[magic schema] number] |]; [| discriminate].
  destruct (negb (magic =? 0xADBCCBDA)); [discriminate |].
  destruct (negb (schema =? 2)); [discriminate |].
  cbn [fst]. intros ->. reflexivity.
Qed.

(** ... and [None] is returned after exactly one error is logged, for a
    wrong magic or a wrong schema. *)
Lemma parse_None message s :
  outcome (parse message) = Ret None ->
  exists magic schema number msg,
    unpack_III (slice message 0 (3 * 4)) = Some (magic, schema, number)
    /\ (magic <> 0xADBCCBDA /\ msg = InvalidMagic magic
        \/ magic = 0xADBCCBDA /\ schema <> 2 /\ msg = InvalidSchema schema)
    /\ parse message s
       = (Ret None, set_trace (trace s ++ [Log ERROR msg]) s).
Proof.
  unfold outcome. rewrite (parse_unfold message s), (parse_unfold message fresh).
  destruct (unpack_III _) as [[[magic schema] number] |]; [| discriminate].
  destruct (Z.eqb_spec magic 0xADBCCBDA) as [Hm | Hm]; cbn [negb].
  - destruct (Z.eqb_spec schema 2) as [Hs | Hs]; cbn [negb].
    + cbn [fst]. intro H.
      destruct (outcome (parse_string message (3 * 4))); try discriminate.
      destruct (if number =? 0 then _ else _); discriminate.
    + intros _. exists magic, schema, number, (InvalidSchema schema). auto 6.
  - intros _. exists magic, schema, number, (InvalidMagic magic). auto 6.
Qed.

(** With a right magic and a right schema, [parse] never returns [None]. *)
Lemma parse_valid_header_not_None message number :
  unpack_III (slice message 0 (3 * 4)) = Some (0xADBCCBDA, 2, number) ->
  outcome (parse message) <> Ret None.
Proof.
  intros H E. destruct (parse_None message fresh E)
    as (magic & schema & n & msg & Hu & Hc & _).
  rewrite H in Hu. injection Hu as <- <- <-.
  destruct Hc as [[Hc _] | (_ & Hc & _)]; apply Hc; reflexivity.
Qed.

Lemma be_value_nonneg bs : 0 <= be_value bs.
Proof.
  unfold be_value.
  assert (H : forall acc, 0 <= acc ->
            0 <= fold_left (fun acc b => acc * 256 + byteZ b) bs acc).
  { induction bs as [| b bs IH]; intros acc Hacc; cbn [fold_left]; auto.
    apply IH. unfold byteZ. lia. }
  apply H. lia.
Qed.

Lemma unpack_I_nonneg bs size : unpack_I bs = Some size -> 0 <= size.
Proof.
  unfold unpack_I. destruct (len bs =? 4); [| discriminate].
  intro H. injection H as <-. apply be_value_nonneg.
Qed.

(** A length prefix cut short by the end of the buffer raises
    [struct.error]. *)
Lemma parse_string_short buffer offset :
  0 <= offset -> len buffer < offset + 4 ->
  outcome (parse_string buffer offset) = Raise StructError.
Proof.
  intros Ho Hl. rewrite parse_string_outcome, unpack_I_short by assumption.
  reflexivity.
Qed.

(** A declared length that runs past the end of the buffer is not
    noticed: the slice stops at the end, and what is there is decoded. *)
Lemma parse_string_overrun buffer offset size :
  0 <= offset ->
  unpack_I (slice buffer offset (offset + 4)) = Some size ->
  len buffer <= offset + 4 + size ->
  outcome (parse_string buffer offset) =
  match utf8_decode (dropZ (offset + 4) buffer) with
  | Some s => Ret s
  | None => Raise UnicodeDecodeError
  end.
Proof.
  intros Ho Hs Hl. rewrite parse_string_outcome, Hs.
  pose proof (unpack_I_nonneg _ _ Hs).
  rewrite slice_to_end by lia. reflexivity.
Qed.

(** The max-schema integer cut short raises [struct.error]. *)
Lemma parse_type_0_short message offset :
  0 <= offset -> len message < offset + 4 ->
  outcome (parse_type_0 message offset) = Raise StructError.
Proof.
  intros Ho Hl. unfold parse_type_0.
  rewrite outcome_bind by apply stateless_struct_unpack_I.
  unfold struct_unpack_I. rewrite unpack_I_short by assumption.
  reflexivity.
Qed.

(** C2, as the code has it: decoding the heartbeat with identity "FT-101",
    max-schema 3, version "2.0" and revision "abc" yields a packet with
    that identity and that version, but its revision is the seven
    characters NUL NUL NUL ETX a b c, because [parse_type_0] advances by
    [len(version)] without the four bytes of the length prefix, and its
    max-schema is the tuple [(3,)], not the integer. *)
Theorem parse_heartbeat_FT101 :
  forall s,
    parse heartbeat_FT101 s =
    (Ret (Some {| type := 0;
                  ident := str_of "FT-101";
                  version := Some (str_of "2.0");
                  revision := Some ([0; 0; 0; 3] ++ str_of "abc");
                  max_schema := Some [3] |}), s).
Proof.
  intro s. apply parse_Some. vm_compute. reflexivity.
Qed.

(** C5, refuted as stated: the identity of [overrun_ident] announces ten
    bytes where two are left, and [parse] returns a packet named "AB";
    [short_prefix] ends inside a length prefix, and [parse] raises
    [struct.error].  Neither is the decode failure [None]. *)
Lemma parse_truncated_counterexample :
  unpack_I (slice overrun_ident 12 16) = Some 10
  /\ len overrun_ident - 16 = 2
  /\ outcome (parse overrun_ident)
     = Ret (Some {| type := 1; ident := str_of "AB"; version := None;
                    revision := None; max_schema := None |})
  /\ len short_prefix = 15
  /\ outcome (parse short_prefix) = Raise StructError.
Proof.
  repeat split; vm_compute; reflexivity.
Qed.

(** C5, amended: a datagram with the right magic and schema never decodes
    to the failure [None].  When it has fewer than 16 bytes, so that it
    ends before the length prefix of the identity is complete, [parse]
    raises [struct.error].  For a heartbeat whose identity decodes to [n]
    characters, when the datagram has fewer than [16 + n + 4] bytes, so
    that it ends before the four bytes that the code reads as max-schema
    (at offset [16 + n], the identity counted in characters, not in bytes)
    are complete, [parse] raises [struct.error].  When the declared length
    of the identity of a non-heartbeat runs past the end of the buffer,
    the identity is what is left of the buffer, decoded (or
    [UnicodeDecodeError] when that is not UTF-8).  Nothing is read beyond
    the buffer. *)
Theorem parse_truncated_fields message number :
  unpack_III (slice message 0 12) = Some (0xADBCCBDA, 2, number) ->
  outcome (parse message) <> Ret None
  /\ (len message < 16 -> outcome (parse message) = Raise StructError)
  /\ (forall size,
        unpack_I (slice message 12 16) = Some size ->
        len message < 16 + size ->
        number <> 0 ->
        outcome (parse message) =
        match utf8_decode (dropZ 16 message) with
        | Some id => Ret (Some {| type := number; ident := id;
                                  version := None; revision := None;
                                  max_schema := None |})
        | None => Raise UnicodeDecodeError
        end)
  /\ (forall id,
        number = 0 ->
        outcome (parse_string message 12) = Ret id ->
        len message < 16 + len id + 4 ->
        outcome (parse message) = Raise StructError).
Proof.
  intro Hh.
  assert (Hp : outcome (parse message) =
               match outcome (parse_string message 12) with
               | Ret id =>
                   match (if number =? 0
                          then outcome (parse_type_0 message (16 + len id))
                          else Ret no_props) with
                   | Ret pr =>
                       Ret (Some {| type := number; ident := id;
                                    version := props_version pr;
                                    revision := props_revision pr;
                                    max_schema := props_max_schema pr |})
                   | Raise e => Raise e
                   | OutOfFuel => OutOfFuel
                   end
               | Raise e => Raise e
               | OutOfFuel => OutOfFuel
               end).
  { unfold outcome at 1. rewrite parse_unfold.
    change (3 * 4) with 12. change (4 * 4) with 16. rewrite Hh.
    reflexivity. }
  split; [| split; [| split]].
  - eapply parse_valid_header_not_None. exact Hh.
  - intro Hl. rewrite Hp, parse_string_short by lia. reflexivity.
  - intros size Hs Hl Hn. rewrite Hp.
    rewrite (parse_string_overrun message 12 size) by
      (try exact Hs; lia).
    change (12 + 4) with 16.
    destruct (utf8_decode (dropZ 16 message)) as [id |]; [| reflexivity].
    destruct (Z.eqb_spec number 0); [contradiction | reflexivity].
  - intros id -> Hid Hl. rewrite Hp, Hid. cbn [Z.eqb].
    pose proof (len_nonneg id).
    rewrite parse_type_0_short by lia. reflexivity.
Qed.

Lemma parse_truncated_fields_witness :
  unpack_III (slice overrun_ident 0 12) = Some (0xADBCCBDA, 2, 1)
  /\ outcome (parse overrun_ident) <> Ret None
  /\ outcome (parse overrun_ident)
     = Ret (Some {| type := 1; ident := str_of "AB"; version := None;
                    revision := None; max_schema := None |}).
Proof.
  assert (H : unpack_III (slice overrun_ident 0 12)
              = Some (0xADBCCBDA, 2, 1)) by (vm_compute; reflexivity).
  split; [exact H |].
  destruct (parse_truncated_fields overrun_ident 1 H) as (H1 & _ & H3 & _).
  split; [exact H1 |].
  rewrite (H3 10); [vm_compute; reflexivity | vm_compute; reflexivity
                   | vm_compute; reflexivity | discriminate].
Defined.


(** ** Code that leaves the table and the sockets alone *)

Section Frame.
Variable P : sock -> event -> Prop.

Lemma frame_refl s : frame P s s.
Proof.
  split; [repeat split | exists []; split; [symmetry; apply app_nil_r | constructor]].
Qed.

Lemma frame_trans a b c : frame P a b -> frame P b c -> frame P a c.
Proof.
  intros [(S1 & I1 & N1) (l1 & T1 & F1)] [(S2 & I2 & N2) (l2 & T2 & F2)].
  split.
  - repeat split; congruence.
  - exists (l1 ++ l2). split.
    + rewrite T2, T1, app_assoc. reflexivity.
    + apply Forall_app. split; [assumption |]. rewrite <- I1. assumption.
Qed.

Lemma frame_ret A (a : A) : post (frame P) (ret a).
Proof. apply (post_ret _ _ frame_refl). Qed.

Lemma frame_raise A e : post (frame P) (@raise state A e).
Proof. apply (post_raise _ _ frame_refl). Qed.

Lemma frame_gets A (f : state -> A) : post (frame P) (gets f).
Proof. apply (post_gets _ _ frame_refl). Qed.

Lemma frame_bind A B (m : M state A) (k : A -> M state B) :
  post (frame P) m -> (forall a, post (frame P) (k a)) ->
  post (frame P) (bind m k).
Proof. apply (post_bind _ _ frame_trans). Qed.

Lemma frame_try_else A B (body : M state A) h (orelse : A -> M state B) :
  post (frame P) body ->
  (forall e k, h e = Some k -> post (frame P) k) ->
  (forall a, post (frame P) (orelse a)) ->
  post (frame P) (try_else body h orelse).
Proof. apply (post_try_else _ _ frame_trans). Qed.

Lemma frame_try A (body : M state A) h :
  post (frame P) body ->
  (forall e k, h e = Some k -> post (frame P) k) ->
  post (frame P) (try_ body h).
Proof. apply (post_try _ _ frame_refl frame_trans). Qed.

Lemma frame_for A (xs : list A) (body : A -> M state unit) :
  (forall x, post (frame P) (body x)) -> post (frame P) (for_ xs body).
Proof. apply (post_for _ _ frame_refl frame_trans). Qed.

Lemma frame_stateless A (m : M state A) :
  stateless m -> post (frame P) m.
Proof. intros H s. rewrite (H s). apply frame_refl. Qed.

Lemma frame_event s e :
  P (inbound s) e -> frame P s (set_trace (trace s ++ [e]) s).
Proof.
  intro H. split; [repeat split |].
  exists [e]. split; [reflexivity | constructor; [assumption | constructor]].
Qed.

Lemma frame_emit e : (forall k, P k e) -> post (frame P) (emit e).
Proof. intros H s. apply frame_event, H. Qed.

Lemma frame_call A e (a : nat -> answer A) :
  (forall k, P k e) -> post (frame P) (call e a).
Proof.
  intros H s. unfold call.
  destruct (a (List.length (trace s))); apply frame_event, H.
Qed.

Lemma frame_set_config c : post (frame P) (modify (set_config c)).
Proof.
  intro s. split; [repeat split |].
  exists []. split; [symmetry; apply app_nil_r | constructor].
Qed.

Lemma frame_set_last_config m : post (frame P) (modify (set_last_config m)).
Proof.
  intro s. split; [repeat split |].
  exists []. split; [symmetry; apply app_nil_r | constructor].
Qed.

Hypothesis P_log : forall k lvl msg, P k (Log lvl msg).

Lemma frame_parse message : post (frame P) (parse message).
Proof.
  intro s. rewrite parse_unfold.
  destruct (unpack_III _) as [[[magic schema] number] |];
    [| apply frame_refl].
  destruct (negb (magic =? 0xADBCCBDA)); [apply frame_event, P_log |].
  destruct (negb (schema =? 2)); [apply frame_event, P_log |].
  apply frame_refl.
Qed.
End Frame.

(** Takes apart a goal [post (frame P) m] along the structure of [m];
    what is left is about the events [m] emits. *)
Ltac frame_handler :=
  let e := fresh "e" in
  let k := fresh "k" in
  let H := fresh "H" in
  intros e k H; destruct e; cbn in H; try discriminate H;
  injection H as <-.

Ltac frame_step :=
  first
    [ apply frame_ret
    | apply frame_raise
    | apply frame_gets
    | apply frame_set_config
    | apply frame_set_last_config
    | apply frame_parse; [intros; exact I]
    | apply frame_emit; [intros; exact I]
    | apply frame_call; [intros; exact I]
    | apply frame_bind; [| intros]
    | apply frame_for; intros
    | apply frame_try; [| frame_handler]
    | apply frame_try_else; [| frame_handler | intros]
    | match goal with
      | |- post _ (match ?x with _ => _ end) => destruct x
      end
    | progress unfold getattr, getattr_opt, getitem, getkey,
        getattr_logging, setLevel, LOG, os_stat_mtime, recvfrom, sendto ].

Ltac frame_tac := repeat frame_step.

Lemma config_frame env : post (frame (fun _ => config_event)) (config env).
Proof. unfold config, _parse_config. frame_tac. Qed.

Lemma config_frame_any env P :
  (forall k e, config_event e -> P k e) -> post (frame P) (config env).
Proof.
  intros HP s. destruct (config_frame env s) as [Ht (l & Hl & HF)].
  split; [exact Ht |]. exists l. split; [exact Hl |].
  eapply Forall_impl; [| exact HF]. intros e He. apply HP, He.
Qed.

Lemma forward_frame env p source data :
  post (frame any_event) (forward env p source data).
Proof.
  unfold forward, forward_body.
  repeat first [apply config_frame_any; [intros; exact I] | frame_step].
Qed.

(** Runs the code on a state given by its fields, up to the next answer
    of the outside world. *)
Ltac exec :=
  cbv beta iota zeta delta
    [bind ret raise gets modify try_ try_else call emit LOG
     os_stat_mtime recvfrom sendto getattr getattr_opt getitem getkey
     getattr_logging setLevel socket_socket WSJTXSource__init__
     _last_config _config inbound sources trace next_sock
     set_last_config set_config set_inbound set_sources set_trace
     set_next_sock fst snd negb is_socket_error];
  rewrite ?length_app; cbn [List.length]; rewrite ?Nat.add_1_r.

(** ** Reloading the configuration *)

(** C9: reading the [config] property leaves the discovery table, the
    inbound socket and the socket counter as they are and performs only
    file and logger events, whatever the file holds; when the modification
    time of the file is later than the one recorded and the file loads,
    the new document is the configuration from then on, its log level is
    set, and the recorded time advances; and [main] reads the property
    after every cycle. *)
Theorem config_reload_keeps_table env s :
  let t := List.length (trace s) in
  let s' := snd (config env s) in
  frame (fun _ => config_event) s s'
  /\ (forall m c,
        stat_mtime env t = Ok m -> m > _last_config s ->
        load_yaml env (t + 1)%nat = Ok c ->
        _config s' = c
        /\ (forall m2 l,
              stat_mtime env (t + 3)%nat = Ok m2 ->
              logging_level (default "WARNING"%string (loglevel c)) = Some l ->
              fst (config env s) = Ret c
              /\ _last_config s' = m2
              /\ trace s' = trace s ++ [Stat; LoadYaml; Log INFO LoadedConfig;
                                        Stat; SetLevel l]))
  /\ (forall fuel,
        fst (run_one env s) = Ret tt ->
        main_loop env (S fuel) s
        = (config env ;; main_loop env fuel) (snd (run_one env s))).
Proof.
  cbv zeta. split; [apply config_frame | split].
  - intros m c Hstat Hnew Hload.
    assert (Hgt : (m >? _last_config s) = true) by (apply Z.gtb_lt; lia).
    destruct s as [lc cf inb srcs tr ns]. cbn in Hstat, Hload, Hgt.
    rewrite Nat.add_1_r in Hload.
    unfold config, _parse_config. exec. rewrite Hstat. exec. rewrite Hgt.
    exec. rewrite Hload. exec.
    split.
    + destruct (stat_mtime env (S (S (S _)))) as [m2 | e2]; exec.
      * destruct (logging_level _) as [l |]; exec; [reflexivity |].
        destruct (logging_other env _) as [[n | nm |] |]; exec;
          try reflexivity;
          [destruct (logging_level nm) | destruct (loglevel c)];
          reflexivity.
      * destruct (is_Exception e2); reflexivity.
    + intros m2 l Hstat2 Hlevel.
      replace (List.length tr + 3)%nat
        with (S (S (S (List.length tr)))) in Hstat2 by lia.
      rewrite Hstat2. exec. rewrite Hlevel. exec.
      rewrite <- !app_assoc. auto.
  - intros fuel Hrun. cbn [main_loop].
    unfold try_, try_else. unfold bind at 1. unfold bind at 1.
    destruct (run_one env s) as [r s1]. cbn [fst snd] in *. subst r.
    reflexivity.
Qed.

(** ** The table *)

Lemma find_source_None a s : find_source None a s = (Raise AttributeError, s).
Proof. reflexivity. Qed.

Lemma find_source_known p a s e :
  dict_get (ident p) (sources s) = Some e ->
  find_source (Some p) a s
  = (Ret (Some (set_dest a e)),
     set_sources (dict_set (ident p) (set_dest a e) (sources s)) s).
Proof.
  destruct s as [lc cf inb srcs tr ns]. cbn [sources]. intro H.
  unfold find_source. exec. rewrite H. reflexivity.
Qed.

Lemma find_source_unknown p a s :
  dict_get (ident p) (sources s) = None -> type p <> WSJTX_HEARTBEAT ->
  find_source (Some p) a s = (Ret None, s).
Proof.
  destruct s as [lc cf inb srcs tr ns]. cbn [sources]. intros H Ht.
  unfold find_source. exec. rewrite H.
  destruct (Z.eqb_spec (type p) WSJTX_HEARTBEAT); [contradiction | reflexivity].
Qed.

Lemma find_source_new p a s v r :
  dict_get (ident p) (sources s) = None -> type p = WSJTX_HEARTBEAT ->
  version p = Some v -> revision p = Some r ->
  let new := {| src_ident := ident p; dest := a; proxysock := next_sock s |} in
  find_source (Some p) a s
  = (Ret (Some new),
     {| _last_config := _last_config s; _config := _config s;
        inbound := inbound s;
        sources := sources s ++ [(ident p, new)];
        trace := trace s ++ [Log INFO (NewSourceFound a (ident p) v r);
                             NewSocket (next_sock s)];
        next_sock := S (next_sock s) |}).
Proof.
  destruct s as [lc cf inb srcs tr ns]. cbn [sources]. intros H Ht Hv Hr.
  unfold find_source. exec. rewrite H, Ht, Hv, Hr. cbn [Z.eqb WSJTX_HEARTBEAT].
  rewrite dict_set_absent by assumption. rewrite <- app_assoc.
  reflexivity.
Qed.


Lemma keeps_entries_refl s : keeps_entries s s.
Proof. intros id e H. exists e. auto. Qed.

Lemma keeps_entries_trans a b c :
  keeps_entries a b -> keeps_entries b c -> keeps_entries a c.
Proof.
  intros H1 H2 id e H. destruct (H1 id e H) as (e1 & G1 & I1 & P1).
  destruct (H2 id e1 G1) as (e2 & G2 & I2 & P2).
  exists e2. repeat split; congruence.
Qed.

Lemma frame_keeps_entries P s s' : frame P s s' -> keeps_entries s s'.
Proof.
  intros [(Hs & _) _] id e H. exists e. rewrite Hs. auto.
Qed.

Lemma find_source_keeps p a : post keeps_entries (find_source p a).
Proof.
  intro s. destruct p as [p |]; [| apply keeps_entries_refl].
  destruct (dict_get (ident p) (sources s)) as [e |] eqn:E.
  - rewrite (find_source_known p a s e E). cbn [snd].
    intros id e0 H. destruct s as [lc cf inb srcs tr ns].
    cbn [sources set_sources] in *.
    destruct (pystr_eqb id (ident p)) eqn:Eid.
    + apply pystr_eqb_eq in Eid. subst id.
      rewrite dict_get_set_same. exists (set_dest a e).
      assert (e0 = e) by congruence. subst e0. auto.
    + rewrite dict_get_set_other.
      * exists e0. auto.
      * intro Hid. subst id. rewrite pystr_eqb_refl in Eid. discriminate.
  - destruct (Z.eqb_spec (type p) WSJTX_HEARTBEAT) as [Ht | Ht].
    + destruct (version p) as [v |] eqn:Ev.
      * destruct (revision p) as [r |] eqn:Er.
        -- rewrite (find_source_new p a s v r E Ht Ev Er). cbn [snd].
           intros id e0 H. exists e0. cbn [sources].
           rewrite <- (dict_set_absent _ (ident p) _ _ E).
           rewrite dict_get_set_other; [auto |].
           intro Hid. subst id. congruence.
        -- destruct s as [lc cf inb srcs tr ns]. cbn [sources] in E.
           unfold find_source. exec. rewrite E, Ht, Ev, Er.
           apply keeps_entries_refl.
      * destruct s as [lc cf inb srcs tr ns]. cbn [sources] in E.
        unfold find_source. exec. rewrite E, Ht, Ev.
        apply keeps_entries_refl.
    + rewrite (find_source_unknown p a s E Ht). apply keeps_entries_refl.
Qed.

(** The same for the sockets and the trace: [find_source] sends nothing. *)
Lemma find_source_inbound p a s :
  inbound (snd (find_source p a s)) = inbound s
  /\ extends_with not_send s (snd (find_source p a s)).
Proof.
  assert (Hrefl : forall s0 : state, inbound s0 = inbound s0
                    /\ extends_with not_send s0 s0).
  { intro s0. split; [reflexivity |]. exists []. rewrite app_nil_r. auto. }
  destruct p as [p |]; [| apply Hrefl].
  destruct (dict_get (ident p) (sources s)) as [e |] eqn:E.
  - rewrite (find_source_known p a s e E). cbn [snd].
    split; [reflexivity |]. exists []. cbn [trace set_sources].
    rewrite app_nil_r. auto.
  - destruct (Z.eqb_spec (type p) WSJTX_HEARTBEAT) as [Ht | Ht].
    + destruct (version p) as [v |] eqn:Ev.
      * destruct (revision p) as [r |] eqn:Er.
        -- rewrite (find_source_new p a s v r E Ht Ev Er). cbn [snd].
           split; [reflexivity |]. eexists. split; [reflexivity |].
           repeat constructor.
        -- destruct s as [lc cf inb srcs tr ns]. cbn [sources] in E.
           unfold find_source. exec. rewrite E, Ht, Ev, Er. apply Hrefl.
      * destruct s as [lc cf inb srcs tr ns]. cbn [sources] in E.
        unfold find_source. exec. rewrite E, Ht, Ev. apply Hrefl.
    + rewrite (find_source_unknown p a s E Ht). apply Hrefl.
Qed.

Lemma post_weaken A (R R' : state -> state -> Prop) (m : M state A) :
  (forall a b, R a b -> R' a b) -> post R m -> post R' m.
Proof. intros H Hm s. apply H, Hm. Qed.


(** ** The reply direction *)

Lemma frame_send_inbound env data a :
  post (frame sent_via) (inb <- gets inbound ;; sendto env inb data a).
Proof.
  intro s. destruct s as [lc cf inb srcs tr ns]. exec.
  destruct (sendto_result env _ inb data a); apply frame_event; reflexivity.
Qed.

Lemma reply_body_frame env readable item :
  post (frame sent_via) (reply_body env readable item).
Proof.
  unfold reply_body. destruct item as [owner k].
  repeat first [apply frame_send_inbound | frame_step].
Qed.

Lemma reply_loop_frame env readable items :
  post (frame sent_via) (for_ items (reply_body env readable)).
Proof. apply frame_for. intro item. apply reply_body_frame. Qed.

(** ** A cycle *)

Lemma steady_refl s : steady s s.
Proof. split; [apply keeps_entries_refl | reflexivity]. Qed.

Lemma steady_trans a b c : steady a b -> steady b c -> steady a c.
Proof.
  intros [K1 I1] [K2 I2]. split.
  - eapply keeps_entries_trans; eassumption.
  - congruence.
Qed.

Lemma frame_steady P s s' : frame P s s' -> steady s s'.
Proof.
  intro F. split; [eapply frame_keeps_entries; exact F |].
  destruct F as [(_ & Hi & _) _]. exact Hi.
Qed.

Lemma find_source_steady p a : post steady (find_source p a).
Proof.
  intro s. split; [apply find_source_keeps | apply find_source_inbound].
Qed.

Lemma inbound_section_steady env : post steady (inbound_section env).
Proof.
  unfold inbound_section.
  apply (post_bind _ _ steady_trans);
    [apply (post_gets _ _ steady_refl) | intro inb].
  apply (post_bind _ _ steady_trans).
  { apply (post_weaken _ (frame any_event));
      [apply frame_steady | frame_tac]. }
  intros [data a].
  apply (post_bind _ _ steady_trans).
  { apply (post_weaken _ (frame any_event));
      [apply frame_steady | frame_tac]. }
  intro p.
  apply (post_bind _ _ steady_trans); [apply find_source_steady |].
  intro source.
  apply (post_weaken _ (frame any_event));
    [apply frame_steady | apply forward_frame].
Qed.

(** No cycle loses an entry or changes the identity or the socket of one. *)
Lemma run_one_steady env : post steady (run_one env).
Proof.
  unfold run_one.
  apply (post_bind _ _ steady_trans);
    [apply (post_gets _ _ steady_refl) | intro srcs].
  apply (post_bind _ _ steady_trans);
    [apply (post_gets _ _ steady_refl) | intro inb].
  apply (post_bind _ _ steady_trans).
  { apply (post_weaken _ (frame any_event));
      [apply frame_steady | frame_tac]. }
  intro readable.
  apply (post_bind _ _ steady_trans).
  { destruct (mem_sock inb readable);
      [apply inbound_section_steady | apply (post_ret _ _ steady_refl)]. }
  intros _.
  apply (post_weaken _ (frame sent_via));
    [apply frame_steady | apply reply_loop_frame].
Qed.

Lemma run_cycles_steady env n s : steady s (run_cycles env n s).
Proof.
  revert s. induction n as [| n IH]; intro s; cbn [run_cycles].
  - apply steady_refl.
  - eapply steady_trans; [apply run_one_steady | apply IH].
Qed.


(** ** The claims about a cycle *)

(** C1, as the code has it: when the datagram read from the inbound socket
    does not decode (wrong magic or wrong schema), the error is logged and
    nothing is sent, but the cycle does not complete: [parse] has returned
    [None], [p.ident] raises [AttributeError], [run_one] has no handler for
    it and neither has the loop of [main], which ends with that exception,
    so that no later datagram is handled. *)
Theorem decode_failure_ends_run_one env s data a :
  arrives env s data a -> outcome (parse data) = Ret None ->
  fst (run_one env s) = Raise AttributeError
  /\ (exists msg,
        trace (snd (run_one env s))
        = trace (selected s) ++ [RecvFrom (inbound s); Log ERROR msg])
  /\ (forall fuel, fst (main_loop env (S fuel) s) = Raise AttributeError).
Proof.
  intros (readable & Hsel & Hmem & Hrecv) Hp.
  destruct s as [lc cf inb srcs tr ns]. cbn [trace inbound] in Hsel, Hmem, Hrecv.
  assert (Hrun : exists msg,
            run_one env {| _last_config := lc; _config := cf; inbound := inb;
                           sources := srcs; trace := tr; next_sock := ns |}
            = (Raise AttributeError,
               {| _last_config := lc; _config := cf; inbound := inb;
                  sources := srcs;
                  trace := (tr ++ [Select (inb :: dict_values
                                                   (proxysocks_of srcs))])
                           ++ [RecvFrom inb; Log ERROR msg];
                  next_sock := ns |})).
  { unfold run_one, inbound_section. exec.
    rewrite Hsel. exec. rewrite Hmem. exec. rewrite Hrecv. exec.
    match goal with
    | |- context [parse data ?st] =>
        destruct (parse_None data st Hp) as (mg & sc & nb & msg & _ & _ & Heq)
    end.
    exists msg. rewrite Heq. exec. rewrite <- !app_assoc. reflexivity. }
  destruct Hrun as (msg & Hrun).
  split; [| split].
  - rewrite Hrun. reflexivity.
  - exists msg. rewrite Hrun. reflexivity.
  - intro fuel. cbn [main_loop]. unfold try_, try_else.
    unfold bind at 1. unfold bind at 1. rewrite Hrun. reflexivity.
Qed.

Lemma decode_failure_ends_run_one_witness :
  fst (run_one (arriving one_destination [0%nat] bad_magic addr_A) ready_state)
  = Raise AttributeError.
Proof.
  apply (decode_failure_ends_run_one
           (arriving one_destination [0%nat] bad_magic addr_A)
           ready_state bad_magic addr_A).
  - exists [0%nat]. split; [| split]; vm_compute; reflexivity.
  - vm_compute. reflexivity.
Defined.





(** ** The socket that replies leave by *)

Lemma config_returns_config env s c :
  fst (config env s) = Ret c -> _config (snd (config env s)) = c.
Proof.
  destruct s as [lc cf inb srcs tr ns]. unfold config. exec.
  destruct (stat_mtime env _) as [m | e]; exec; [| discriminate].
  destruct (m >? lc); exec.
  - match goal with
    | |- context [_parse_config env ?st] =>
        destruct (_parse_config env st) as [[[] | e |] [lc' cf' inb' srcs' tr' ns']]
    end; exec; try discriminate.
    + intro H. injection H as <-. reflexivity.
    + destruct (is_Exception e); exec; [| discriminate].
      intro H. injection H as <-. reflexivity.
  - intro H. injection H as <-. reflexivity.
Qed.

(** C10: every datagram the reply direction sends leaves by the inbound
    socket of the forwarder, whichever dedicated socket it was read from;
    no cycle changes which socket that is; and it is the socket [setup]
    bound to the listen address of the configuration (by default
    0.0.0.0:2237). *)
Theorem replies_leave_by_inbound_socket env :
  (forall readable items s,
      let s' := snd (for_ items (reply_body env readable) s) in
      inbound s' = inbound s
      /\ exists l, trace s' = trace s ++ l /\ Forall (sent_via (inbound s)) l)
  /\ (forall n s, inbound (run_cycles env n s) = inbound s)
  /\ (forall s,
        fst (setup env s) = Ret tt ->
        let s' := snd (setup env s) in
        let src := default {| s_host := None; s_port := None |}
                           (source (_config s')) in
        In (Bind (inbound s')
                 (default "0.0.0.0"%string (s_host src),
                  default 2237 (s_port src)))
           (trace s')).
Proof.
  split; [| split].
  - intros readable items s. cbv zeta.
    destruct (reply_loop_frame env readable items s) as [(_ & Hi & _) Hl].
    split; assumption.
  - intros n s. apply (run_cycles_steady env n s).
  - intros s. destruct s as [lc cf inb srcs tr ns]. unfold setup. exec.
    match goal with
    | |- context [config env ?st] =>
        pose proof (config_frame env st) as Hf;
        pose proof (config_returns_config env st) as Hc;
        destruct (config env st) as [[c | e |] [lc' cf' inb' srcs' tr' ns']]
    end; exec; try discriminate.
    destruct Hf as [(_ & Hi & _) _]. cbn [snd inbound] in Hi. subst inb'.
    specialize (Hc c eq_refl). cbn [snd _config] in Hc. subst cf'.
    destruct (bind_result env _) as [[] | e]; exec; [| discriminate].
    intros _. apply in_or_app. left. apply in_or_app. right. left.
    reflexivity.
Qed.

End QsoFwdFacts.

(* ===================================================================== *)
(** * The serial proxy *)
(* ===================================================================== *)

Module FlRigProxyFacts.
Import FlRigProxy.

Ltac exec :=
  cbv beta iota zeta delta
    [bind ret raise gets modify try_ try_else call emit log getattr
     select recv send socket_socket all_some option_map mem_opt truthy
     running _flrig_sock _rigctlcom_sock _rigctlcom _thread thread trace
     next_sock next_proc set_running set_flrig_sock set_rigctlcom_sock
     set_rigctlcom set_thread set_trace set_next_sock set_next_proc
     fst snd negb andb orb existsb is_socket_error is_Exception];
  rewrite ?length_app; cbn [List.length]; rewrite ?Nat.add_1_r.

(** ** One turn of the loop *)

(** When nothing is readable, a turn is a call of [select] and no more. *)
Lemma proxy_turn_idle env s r f :
  _rigctlcom_sock s = Some r -> _flrig_sock s = Some f ->
  select_result env (List.length (trace s)) = Ok [] ->
  proxy_turn env [Some r; Some f] s
  = (Ret tt, set_trace (trace s ++ [Select [r; f]]) s).
Proof.
  destruct s as [run fs rs rc th0 th tr ns np].
  cbn [_rigctlcom_sock _flrig_sock trace]. intros -> -> Hsel.
  unfold proxy_turn. exec. rewrite Hsel. exec. reflexivity.
Qed.

(** When the bridge socket is readable, what is read from it is sent, as
    it is, to flrig; the empty string an orderly close reads as is no
    exception. *)
Lemma proxy_turn_from_bridge env s r f data n :
  _rigctlcom_sock s = Some r -> _flrig_sock s = Some f -> r <> f ->
  select_result env (List.length (trace s)) = Ok [r] ->
  recv_result env (S (List.length (trace s))) r = Ok data ->
  send_result env (S (S (List.length (trace s)))) f data = Ok n ->
  proxy_turn env [Some r; Some f] s
  = (Ret tt,
     set_trace (trace s ++ [Select [r; f]; Recv r; Send f data]) s).
Proof.
  destruct s as [run fs rs rc th0 th tr ns np].
  cbn [_rigctlcom_sock _flrig_sock trace]. intros -> -> Hne Hsel Hrecv Hsend.
  unfold proxy_turn. exec. rewrite Hsel. exec.
  rewrite Nat.eqb_refl. exec.
  rewrite Hrecv. exec. rewrite Hsend. exec.
  destruct (Nat.eqb_spec f r) as [E | _]; [congruence |].
  rewrite <- !app_assoc. reflexivity.
Qed.

(** The other direction. *)
Lemma proxy_turn_from_flrig env s r f data n :
  _rigctlcom_sock s = Some r -> _flrig_sock s = Some f -> r <> f ->
  select_result env (List.length (trace s)) = Ok [f] ->
  recv_result env (S (List.length (trace s))) f = Ok data ->
  send_result env (S (S (List.length (trace s)))) r data = Ok n ->
  proxy_turn env [Some r; Some f] s
  = (Ret tt,
     set_trace (trace s ++ [Select [r; f]; Recv f; Send r data]) s).
Proof.
  destruct s as [run fs rs rc th0 th tr ns np].
  cbn [_rigctlcom_sock _flrig_sock trace]. intros -> -> Hne Hsel Hrecv Hsend.
  unfold proxy_turn. exec. rewrite Hsel. exec.
  destruct (Nat.eqb_spec r f) as [E | _]; [congruence |].
  rewrite Nat.eqb_refl. exec.
  rewrite Hrecv. exec. rewrite Hsend. exec.
  rewrite <- !app_assoc. reflexivity.
Qed.

(** ** The loop *)

Lemma _proxy_loop_turns env fuel s r f :
  _rigctlcom_sock s = Some r -> _flrig_sock s = Some f ->
  _proxy_loop env fuel s = proxy_turns env fuel [Some r; Some f] s.
Proof.
  intros Hr Hf. unfold _proxy_loop, bind, gets. rewrite Hr, Hf. reflexivity.
Qed.

Lemma set_trace_same s : set_trace (trace s ++ []) s = s.
Proof. destruct s. cbn. rewrite app_nil_r. reflexivity. Qed.

Lemma set_trace_twice t1 t2 s :
  set_trace t2 (set_trace t1 s) = set_trace t2 s.
Proof. reflexivity. Qed.

(** With nothing to read, the loop only calls [select], turn after turn. *)
Lemma proxy_turns_idle env r f :
  (forall t, select_result env t = Ok []) ->
  forall fuel s,
    _rigctlcom_sock s = Some r -> _flrig_sock s = Some f ->
    proxy_turns env fuel [Some r; Some f] s
    = (OutOfFuel, set_trace (trace s ++ repeat (Select [r; f]) fuel) s).
Proof.
  intros Hsel. induction fuel as [| fuel IH]; intros s Hr Hf.
  - cbn [proxy_turns repeat]. rewrite set_trace_same. reflexivity.
  - cbn [proxy_turns repeat].
    rewrite (bind_Ret _ _ _ _ _ (proxy_turn_idle env s r f Hr Hf (Hsel _))).
    rewrite IH by (destruct s; assumption).
    destruct s as [run fs rs rc th0 th tr ns np].
    cbn [trace set_trace]. rewrite <- app_assoc. reflexivity.
Qed.

(** After an orderly close by the bridge child, every turn reads the empty
    string and sends it on. *)
Lemma proxy_turns_closed env r f :
  r <> f ->
  (forall t, select_result env t = Ok [r]) ->
  (forall t, recv_result env t r = Ok []) ->
  (forall t, exists n, send_result env t f [] = Ok n) ->
  forall fuel s,
    _rigctlcom_sock s = Some r -> _flrig_sock s = Some f ->
    proxy_turns env fuel [Some r; Some f] s
    = (OutOfFuel,
       set_trace (trace s
                  ++ List.concat (repeat [Select [r; f]; Recv r; Send f []] fuel))
                 s).
Proof.
  intros Hne Hsel Hrecv Hsend. induction fuel as [| fuel IH]; intros s Hr Hf.
  - cbn [proxy_turns repeat List.concat]. rewrite set_trace_same. reflexivity.
  - cbn [proxy_turns repeat List.concat].
    destruct (Hsend (S (S (List.length (trace s))))) as (n & Hn).
    rewrite (bind_Ret _ _ _ _ _
               (proxy_turn_from_bridge env s r f [] n Hr Hf Hne
                  (Hsel _) (Hrecv _) Hn)).
    rewrite IH by (destruct s; assumption).
    destruct s as [run fs rs rc th0 th tr ns np].
    cbn [trace set_trace]. rewrite <- app_assoc. reflexivity.
Qed.

(** C3, as the code has it: what a turn of the loop reads from one socket
    it sends, as it is, to the other ([proxy_turn_from_bridge],
    [proxy_turn_from_flrig]); but an orderly close by the peer is not an
    error for it.  [recv] then returns the empty string, the loop sends
    the empty string on and goes round again, and however many turns it is
    given it neither returns nor raises, so that [thread_loop] never
    reaches its reset. *)
Theorem orderly_close_keeps_proxy_loop env s r f :
  _rigctlcom_sock s = Some r -> _flrig_sock s = Some f -> r <> f ->
  (forall t, select_result env t = Ok [r]) ->
  (forall t, recv_result env t r = Ok []) ->
  (forall t, exists n, send_result env t f [] = Ok n) ->
  forall fuel,
    _proxy_loop env fuel s
    = (OutOfFuel,
       set_trace (trace s
                  ++ List.concat (repeat [Select [r; f]; Recv r; Send f []] fuel))
                 s).
Proof.
  intros Hr Hf Hne Hsel Hrecv Hsend fuel.
  rewrite (_proxy_loop_turns env fuel s r f Hr Hf).
  apply proxy_turns_closed; assumption.
Qed.

Lemma orderly_close_keeps_proxy_loop_witness :
  fst (_proxy_loop bridge_closed 1000 relaying_state) = OutOfFuel.
Proof.
  rewrite (orderly_close_keeps_proxy_loop bridge_closed relaying_state
             2%nat 0%nat).
  - reflexivity.
  - reflexivity.
  - reflexivity.
  - discriminate.
  - reflexivity.
  - reflexivity.
  - intro t. exists 0. reflexivity.
Defined.

(** C4, as the code has it: [stop] before [start] raises
    [AttributeError], because the object has no attribute [thread] yet;
    and [stop] while the proxy loop is idle clears [running], waits a
    second for the thread and logs, closing nothing, while the loop, which
    never reads [running], goes on calling [select] for as many turns as
    it is given. *)
Theorem stop_leaves_proxy_loop_running env s r f th :
  _rigctlcom_sock s = Some r -> _flrig_sock s = Some f ->
  thread s = Some th ->
  (forall t, select_result env t = Ok []) ->
  fst (stop __init__) = Raise AttributeError
  /\ forall n1 n2,
       let s1 := snd (_proxy_loop env n1 s) in
       let s2 := snd (stop s1) in
       fst (stop s1) = Ret tt
       /\ running s2 = false
       /\ trace s2 = trace s ++ repeat (Select [r; f]) n1
                     ++ [Join 1; Log INFO Stoppped]
       /\ _proxy_loop env n2 s2
          = (OutOfFuel,
             set_trace (trace s2 ++ repeat (Select [r; f]) n2) s2).
Proof.
  intros Hr Hf Hth Hsel. split; [reflexivity |].
  intros n1 n2. cbv zeta.
  rewrite (_proxy_loop_turns env n1 s r f Hr Hf).
  rewrite (proxy_turns_idle env r f Hsel n1 s Hr Hf). cbn [snd].
  destruct s as [run fs rs rc th0 th' tr ns np].
  cbn [_rigctlcom_sock _flrig_sock thread] in Hr, Hf, Hth. subst.
  unfold stop. exec.
  split; [reflexivity | split; [reflexivity | split]].
  - rewrite <- !app_assoc. reflexivity.
  - match goal with
    | |- _proxy_loop env n2 ?st = _ =>
        rewrite (_proxy_loop_turns env n2 st r f eq_refl eq_refl)
    end.
    apply proxy_turns_idle; [assumption | reflexivity | reflexivity].
Qed.

Lemma stop_leaves_proxy_loop_running_witness :
  fst (_proxy_loop idle 1000
         (snd (stop (snd (_proxy_loop idle 4 relaying_state)))))
  = OutOfFuel.
Proof.
  destruct (stop_leaves_proxy_loop_running idle relaying_state 2%nat 0%nat
              0%nat eq_refl eq_refl eq_refl (fun _ => eq_refl))
    as (_ & H).
  destruct (H 4%nat 1000%nat) as (_ & _ & _ & Hloop).
  exact (f_equal fst Hloop).
Defined.

(** ** The reset *)

(** [_reset] always returns, whatever is held, and nothing is held
    afterwards. *)
Lemma _reset_releases s :
  exists s', _reset s = (Ret tt, s') /\ released s'
             /\ running s' = running s /\ thread s' = thread s.
Proof.
  destruct s as [run fs rs rc th0 th tr ns np]. unfold _reset, released.
  destruct rs as [r |], rc as [p |], fs as [f |]; exec;
    eexists; (split; [reflexivity | repeat split]).
Qed.

(** From the Relaying state it closes the bridge socket, kills the child
    and waits for it, and closes the control socket, in this order. *)
Lemma _reset_relaying s f r p :
  _flrig_sock s = Some f -> _rigctlcom_sock s = Some r ->
  _rigctlcom s = Some p ->
  trace (snd (_reset s))
  = trace s ++ [Log DEBUG ClosingRigctlcomSocket; Close r;
                Log INFO StoppingRigctlcom; Kill p; Wait p;
                Log DEBUG RigctlcomIsDead;
                Log DEBUG ClosingFlrigSocket; Close f].
Proof.
  destruct s as [run fs rs rc th0 th tr ns np].
  cbn [_flrig_sock _rigctlcom_sock _rigctlcom]. intros -> -> ->.
  unfold _reset. exec. rewrite <- !app_assoc. reflexivity.
Qed.

(** C8: when the [try] suite of [thread_loop] ends with a socket error
    other than connection-refused, the handler runs [_reset]: afterwards
    no socket and no child process is held and the loop is back at its
    head, so that the next [connect] comes after the reset; if the error
    came in the Relaying state, the reset has closed the bridge socket,
    killed the child and waited for it, and closed the control socket, and
    has done nothing else.  [_reset] itself returns from every state,
    whatever is absent. *)
Theorem transport_error_resets port serial exe env fuel s0 s1 e :
  attempt port serial exe env fuel s0 = (Raise e, s1) ->
  is_socket_error e = true ->
  e <> ConnectionRefusedError ->
  exists s2,
    try_ (attempt port serial exe env fuel) on_exception s0 = (Ret tt, s2)
    /\ released s2
    /\ running s2 = running s1
    /\ (forall f r p,
          _flrig_sock s1 = Some f -> _rigctlcom_sock s1 = Some r ->
          _rigctlcom s1 = Some p ->
          trace s2
          = trace s1 ++ [Log DEBUG (SocketReset e);
                         Log DEBUG ClosingRigctlcomSocket; Close r;
                         Log INFO StoppingRigctlcom; Kill p; Wait p;
                         Log DEBUG RigctlcomIsDead;
                         Log DEBUG ClosingFlrigSocket; Close f])
    /\ (running s0 = true ->
        thread_loop port serial exe env (S fuel) s0
        = thread_loop port serial exe env fuel s2)
    /\ (forall s, exists s', _reset s = (Ret tt, s') /\ released s').
Proof.
  intros Hatt Hsock Hne.
  assert (Hh : on_exception e = Some (log DEBUG (SocketReset e) ;; _reset)).
  { destruct e; try discriminate Hsock; try reflexivity. contradiction. }
  set (s1' := set_trace (trace s1 ++ [Log DEBUG (SocketReset e)]) s1).
  destruct (_reset_releases s1') as (s2 & Hreset & Hrel & Hrun & _).
  assert (Hbody : try_ (attempt port serial exe env fuel) on_exception s0
                  = (Ret tt, s2)).
  { unfold try_, try_else. rewrite Hatt, Hh.
    unfold bind at 1. unfold log, emit, modify. fold s1'.
    rewrite Hreset. reflexivity. }
  exists s2. split; [exact Hbody | split; [exact Hrel | split; [| split; [| split]]]].
  - rewrite Hrun. destruct s1; reflexivity.
  - intros f r p Hf Hr Hp.
    assert (Ht : trace (snd (_reset s1'))
                 = trace s1' ++ [Log DEBUG ClosingRigctlcomSocket; Close r;
                                 Log INFO StoppingRigctlcom; Kill p; Wait p;
                                 Log DEBUG RigctlcomIsDead;
                                 Log DEBUG ClosingFlrigSocket; Close f]).
    { apply _reset_relaying; destruct s1; assumption. }
    rewrite Hreset in Ht. cbn [snd] in Ht. rewrite Ht.
    destruct s1. cbn [s1' trace set_trace]. rewrite <- app_assoc.
    reflexivity.
  - intro Hrunning. cbn [thread_loop]. unfold bind at 1. unfold gets.
    rewrite Hrunning. unfold bind at 1. rewrite Hbody. reflexivity.
  - intro s. destruct (_reset_releases s) as (s' & H1 & H2 & _).
    exists s'. split; assumption.
Qed.

Lemma transport_error_resets_witness :
  released
    (snd (try_ (attempt 12345 "/dev/ttyS0" "rigctlcom" bridge_reset 1)
               on_exception started_state))
  /\ trace
       (snd (try_ (attempt 12345 "/dev/ttyS0" "rigctlcom" bridge_reset 1)
                  on_exception started_state))
     = trace (snd (attempt 12345 "/dev/ttyS0" "rigctlcom" bridge_reset 1
                     started_state))
       ++ [Log DEBUG (SocketReset ConnectionResetError);
           Log DEBUG ClosingRigctlcomSocket; Close 2%nat;
           Log INFO StoppingRigctlcom; Kill 0%nat; Wait 0%nat;
           Log DEBUG RigctlcomIsDead;
           Log DEBUG ClosingFlrigSocket; Close 0%nat].
Proof.
  destruct (transport_error_resets 12345 "/dev/ttyS0" "rigctlcom" bridge_reset
              1 started_state
              (snd (attempt 12345 "/dev/ttyS0" "rigctlcom" bridge_reset 1
                      started_state))
              ConnectionResetError)
    as (s2 & Hbody & Hrel & _ & Htrace & _).
  - vm_compute. reflexivity.
  - reflexivity.
  - discriminate.
  - rewrite Hbody. cbn [snd]. split; [exact Hrel |].
    apply (Htrace 0%nat 2%nat 0%nat); vm_compute; reflexivity.
Defined.

End FlRigProxyFacts.

(* ===================================================================== *)
(** * More about the packet forwarder *)
(* ===================================================================== *)

Module QsoFwdMore.
Import QsoFwd QsoFwdFacts.

(** ** The codec *)

Lemma byteZ_byte_of_Z z : byteZ (byte_of_Z z) = z mod 256.
Proof.
  unfold byteZ, byte_of_Z.
  assert (Hr : 0 <= z mod 256 < 256) by (apply Z.mod_pos_bound; lia).
  destruct (Byte.of_N (Z.to_N (z mod 256))) as [b |] eqn:E.
  - apply Byte.to_of_N in E. rewrite E. lia.
  - apply Byte.of_N_None_iff in E. lia.
Qed.

Lemma be_value_be32 n : 0 <= n < 4294967296 -> be_value (be32 n) = n.
Proof.
  intro Hn. unfold be32, bytes_of, be_value. cbn [map fold_left].
  rewrite !byteZ_byte_of_Z.
  pose proof (Z.div_mod n 256 ltac:(lia)).
  pose proof (Z.mod_pos_bound n 256 ltac:(lia)).
  pose proof (Z.div_mod (n / 256) 256 ltac:(lia)).
  pose proof (Z.mod_pos_bound (n / 256) 256 ltac:(lia)).
  pose proof (Z.div_mod (n / 65536) 256 ltac:(lia)).
  pose proof (Z.mod_pos_bound (n / 65536) 256 ltac:(lia)).
  assert (H65 : n / 65536 = n / 256 / 256)
    by (rewrite Z.div_div by lia; reflexivity).
  assert (H16 : n / 16777216 = n / 65536 / 256)
    by (rewrite Z.div_div by lia; reflexivity).
  assert (Hsmall : (n / 16777216) mod 256 = n / 16777216).
  { apply Z.mod_small. split.
    - apply Z.div_pos; lia.
    - apply Z.div_lt_upper_bound; lia. }
  rewrite Hsmall. lia.
Qed.

Lemma len_app {A} (a b : list A) : len (a ++ b) = len a + len b.
Proof. unfold len. rewrite length_app. lia. Qed.

Lemma dropZ_app {A} (a b : list A) : dropZ (len a) (a ++ b) = b.
Proof.
  induction a as [| x a IH].
  - destruct b; reflexivity.
  - rewrite len_cons. cbn [app dropZ]. pose proof (len_nonneg a).
    destruct (Z.leb_spec (len a + 1) 0); [lia |].
    replace (len a + 1 - 1) with (len a) by lia. exact IH.
Qed.

Lemma takeZ_app {A} (a b : list A) : takeZ (len a) (a ++ b) = a.
Proof.
  induction a as [| x a IH].
  - destruct b; reflexivity.
  - rewrite len_cons. cbn [app takeZ]. pose proof (len_nonneg a).
    destruct (Z.leb_spec (len a + 1) 0); [lia |].
    replace (len a + 1 - 1) with (len a) by lia. rewrite IH. reflexivity.
Qed.

(** The slice that starts after [a] and is as long as [b] is [b]. *)
Lemma slice_middle {A} (a b c : list A) :
  slice (a ++ b ++ c) (len a) (len a + len b) = b.
Proof.
  unfold slice. rewrite dropZ_app.
  replace (len a + len b - len a) with (len b) by lia. apply takeZ_app.
Qed.

Lemma len_header magic schema number : len (header magic schema number) = 12.
Proof. reflexivity. Qed.

Lemma len_be32 n : len (be32 n) = 4.
Proof. reflexivity. Qed.

Lemma unpack_III_header magic schema number rest :
  0 <= magic < 4294967296 -> 0 <= schema < 4294967296 ->
  0 <= number < 4294967296 ->
  unpack_III (slice (header magic schema number ++ rest) 0 (3 * 4))
  = Some (magic, schema, number).
Proof.
  intros Hm Hs Hn.
  assert (Hsl : slice (header magic schema number ++ rest) 0 (3 * 4)
                = header magic schema number).
  { change (3 * 4) with (len (header magic schema number)).
    unfold slice. rewrite Z.sub_0_r. cbn [dropZ].
    assert (Hd : forall l : bytes, dropZ 0 l = l) by (intros [|]; reflexivity).
    rewrite Hd. apply takeZ_app. }
  rewrite Hsl. unfold unpack_III. rewrite len_header. cbn [Z.eqb Pos.eqb].
  change (slice (header magic schema number) 0 4) with (be32 magic).
  change (slice (header magic schema number) 4 8) with (be32 schema).
  change (slice (header magic schema number) 8 12) with (be32 number).
  rewrite !be_value_be32 by assumption. reflexivity.
Qed.

(** X1: a datagram of fewer than twelve bytes, the empty one included,
    makes [parse] raise [struct.error]: the header cannot be unpacked, and
    that is neither a packet nor the logged failure [None]. *)
Theorem parse_short_datagram message :
  len message < 12 -> forall s, parse message s = (Raise StructError, s).
Proof.
  intros Hl s. rewrite parse_unfold.
  destruct (unpack_III (slice message 0 (3 * 4))) as [t |] eqn:E;
    [| reflexivity].
  apply unpack_III_Some in E. lia.
Qed.

Lemma parse_short_datagram_witness :
  parse [] fresh = (Raise StructError, fresh).
Proof.
  apply (parse_short_datagram []). reflexivity.
Defined.

(** X2: decoding inverts the layout of a datagram that is not a
    heartbeat.  For every type other than 0 and every identity that is
    valid UTF-8, the datagram made of the header, the length-prefixed
    identity and any payload decodes to the packet with that type and that
    identity, whatever the payload is, and nothing is logged. *)
Theorem parse_opaque_datagram number idb payload id :
  0 < number < 4294967296 ->
  len idb < 4294967296 ->
  utf8_decode idb = Some id ->
  forall s,
    parse (opaque_datagram number idb payload) s
    = (Ret (Some {| type := number; ident := id; version := None;
                    revision := None; max_schema := None |}), s).
Proof.
  intros Hn Hl Hid s. apply parse_Some. unfold outcome.
  rewrite parse_unfold. unfold opaque_datagram.
  rewrite unpack_III_header by lia.
  cbn [Z.eqb Pos.eqb negb fst].
  rewrite parse_string_outcome.
  pose proof (len_nonneg idb).
  assert (Hsize : slice (header 2914831322 2 number
                         ++ be32 (len idb) ++ idb ++ payload)
                        (3 * 4) (3 * 4 + 4)
                  = be32 (len idb)).
  { apply (slice_middle (header 2914831322 2 number) (be32 (len idb))
             (idb ++ payload)). }
  rewrite Hsize. unfold unpack_I. rewrite len_be32. cbn [Z.eqb Pos.eqb].
  rewrite be_value_be32 by lia.
  assert (Hstr : slice (header 2914831322 2 number
                        ++ be32 (len idb) ++ idb ++ payload)
                       (3 * 4 + 4) (3 * 4 + 4 + len idb)
                 = idb).
  { rewrite app_assoc.
    pose proof (slice_middle (header 2914831322 2 number ++ be32 (len idb))
                  idb payload) as Hm.
    rewrite len_app, len_header, len_be32 in Hm. exact Hm. }
  rewrite Hstr, Hid.
  destruct (Z.eqb_spec number 0); [lia | reflexivity].
Qed.

Lemma parse_opaque_datagram_witness :
  parse (opaque_datagram 1 (ascii_bytes "FT-101") (bytes_of [1; 2; 3])) fresh
  = (Ret (Some {| type := 1; ident := str_of "FT-101"; version := None;
                  revision := None; max_schema := None |}), fresh).
Proof.
  apply (parse_opaque_datagram 1 (ascii_bytes "FT-101") (bytes_of [1; 2; 3])
           (str_of "FT-101")).
  - lia.
  - vm_compute. reflexivity.
  - vm_compute. reflexivity.
Defined.

(** ** What is sent *)

Lemma sends_app a b : sends (a ++ b) = sends a ++ sends b.
Proof.
  induction a as [| e a IH]; [reflexivity |].
  destruct e; cbn [app sends]; rewrite ?IH; reflexivity.
Qed.

Lemma sends_not_send l : Forall not_send l -> sends l = [].
Proof.
  induction 1 as [| e l He _ IH]; [reflexivity |].
  destruct e; cbn [sends]; try assumption. destruct He.
Qed.

Lemma sends_config_events l : Forall config_event l -> sends l = [].
Proof.
  intro H. apply sends_not_send. eapply Forall_impl; [| exact H].
  intros e He. destruct e; try exact I; destruct He.
Qed.

(** [forward] is a log record, a reading of the configuration and the loop
    over the destinations. *)
Lemma forward_unfold env pk source data s :
  forward env (Some pk) source data s
  = (c <- config env ;;
     for_ (default [] (destinations c)) (forward_body env source data))
      (set_trace
         (trace s ++ [Log INFO (ReceivedType (type pk) (ident pk))]) s).
Proof. destruct s. reflexivity. Qed.

(** The inbound suite, once the datagram is read and decoded. *)
Lemma inbound_section_unfold env s data a p :
  recvfrom_result env (List.length (trace s)) (inbound s) = Ok (data, a) ->
  outcome (parse data) = Ret (Some p) ->
  inbound_section env s
  = (source <- find_source (Some p) a ;; forward env (Some p) source data)
      (set_trace (trace s ++ [RecvFrom (inbound s)]) s).
Proof.
  intros Hrecv Hp. destruct s as [lc cf inb srcs tr ns].
  cbn [trace inbound] in Hrecv.
  unfold inbound_section. unfold bind at 1. cbn [gets inbound].
  unfold bind at 1. unfold recvfrom, call. cbn [trace]. rewrite Hrecv.
  unfold bind at 1. rewrite (parse_Some data _ p Hp). reflexivity.
Qed.

(** One destination: the bytes go to it through the socket of the source;
    a socket error is logged and that is all. *)
Lemma forward_body_sends env source data d port s :
  d_port d = Some port ->
  (forall t k b a e, sendto_result env t k b a = Err e ->
                     is_socket_error e = true) ->
  exists s',
    forward_body env (Some source) data d s = (Ret tt, s')
    /\ same_table s s' /\ _config s' = _config s
    /\ sends (trace s') = sends (trace s) ++ [(proxysock source, data, target d)].
Proof.
  intros Hport Herr. destruct s as [lc cf inb srcs tr ns].
  unfold forward_body, target. rewrite Hport. exec.
  destruct (sendto_result env _ _ _ _) as [[] | e] eqn:E.
  - eexists. split; [reflexivity |]. split; [repeat split |].
    split; [reflexivity |]. cbn [trace].
    rewrite sends_app. reflexivity.
  - pose proof (Herr _ _ _ _ _ E) as Hs.
    destruct e; try discriminate Hs; exec;
      (eexists; split; [reflexivity |]; split; [repeat split |];
       split; [reflexivity |]; cbn [trace];
       rewrite !sends_app; cbn [sends app]; rewrite app_nil_r; reflexivity).
Qed.

Lemma forward_loop_sends env source data dests :
  (forall d, In d dests -> d_port d <> None) ->
  (forall t k b a e, sendto_result env t k b a = Err e ->
                     is_socket_error e = true) ->
  forall s,
  exists s',
    for_ dests (forward_body env (Some source) data) s = (Ret tt, s')
    /\ same_table s s' /\ _config s' = _config s
    /\ sends (trace s')
       = sends (trace s)
         ++ map (fun d => (proxysock source, data, target d)) dests.
Proof.
  intros Hports Herr. induction dests as [| d dests IH]; intro s.
  - exists s. cbn [for_ map]. rewrite app_nil_r.
    repeat split; reflexivity.
  - destruct (d_port d) as [port |] eqn:Hp;
      [| exfalso; apply (Hports d); [left; reflexivity | exact Hp]].
    destruct (forward_body_sends env source data d port s Hp Herr)
      as (s1 & H1 & (T1 & T2 & T3) & C1 & S1).
    destruct (IH (fun d' Hd => Hports d' (or_intror Hd)) s1)
      as (s2 & H2 & (U1 & U2 & U3) & C2 & S2).
    exists s2. cbn [for_]. rewrite (bind_Ret _ _ _ _ _ H1), H2.
    split; [reflexivity |]. split; [repeat split; congruence |].
    split; [congruence |].
    rewrite S2, S1, <- app_assoc. reflexivity.
Qed.

(** X3: a datagram whose source has a table entry is sent, as it is, to
    every destination of the configuration in force, in the order of the
    list, through the dedicated socket of that entry; a send that fails
    with a socket error is logged and the remaining destinations are still
    served; the table is not touched. *)
Theorem datagram_forwarded_to_every_destination env pk source data s c :
  let s0 := set_trace (trace s ++ [Log INFO (ReceivedType (type pk) (ident pk))])
                      s in
  fst (config env s0) = Ret c ->
  (forall d, In d (default [] (destinations c)) -> d_port d <> None) ->
  (forall t k b a e, sendto_result env t k b a = Err e ->
                     is_socket_error e = true) ->
  let r := forward env (Some pk) (Some source) data s in
  fst r = Ret tt
  /\ sends (trace (snd r))
     = sends (trace s)
       ++ map (fun d => (proxysock source, data, target d))
              (default [] (destinations c))
  /\ sources (snd r) = sources s.
Proof.
  cbv zeta. intros Hc Hports Herr.
  rewrite forward_unfold. unfold bind.
  pose proof (config_frame env
                (set_trace (trace s ++ [Log INFO (ReceivedType (type pk)
                                                               (ident pk))]) s))
    as Hf.
  destruct (config env _) as [rc s1]. cbn [fst snd] in Hc, Hf. subst rc.
  destruct (forward_loop_sends env source data _ Hports Herr s1)
    as (s2 & H2 & (T1 & _) & _ & S2).
  rewrite H2. cbn [fst snd].
  destruct Hf as [(F1 & _) (l & Hl & HF)].
  destruct s as [lc cf inb srcs tr ns].
  cbn [trace sources set_trace] in F1, Hl |- *.
  split; [reflexivity |]. split.
  - rewrite S2, Hl, !sends_app, (sends_config_events l HF).
    cbn [sends]. rewrite !app_nil_r. reflexivity.
  - congruence.
Qed.

Lemma datagram_forwarded_to_every_destination_witness :
  fst (forward (quiet one_destination) (Some parsed_status_FT101)
         (Some {| src_ident := str_of "FT-101"; dest := addr_A;
                  proxysock := 1%nat |})
         status_FT101 discovered_state)
  = Ret tt.
Proof.
  refine (proj1 (datagram_forwarded_to_every_destination
                   (quiet one_destination) parsed_status_FT101 _
                   status_FT101 discovered_state one_destination _ _ _)).
  - vm_compute. reflexivity.
  - intros d [<- | []]. discriminate.
  - intros t k b a e H. discriminate H.
Defined.

(** Without a source nothing is sent to a destination, and the state is
    as before; only a destination without a port is noticed. *)
Lemma forward_body_no_source env data d s :
  forward_body env None data d s
  = (match d_port d with Some _ => Ret tt | None => Raise KeyError end, s).
Proof.
  destruct s as [lc cf inb srcs tr ns]. unfold forward_body.
  destruct (d_port d); reflexivity.
Qed.

Lemma forward_loop_no_source env data dests s :
  snd (for_ dests (forward_body env None data) s) = s.
Proof.
  induction dests as [| d dests IH]; [reflexivity |].
  cbn [for_]. unfold bind. rewrite forward_body_no_source.
  destruct (d_port d); [exact IH | reflexivity].
Qed.

(** X4: a datagram that is not a heartbeat and whose identity is not in
    the table is dropped: the cycle creates no entry and no socket and
    sends nothing for it (it still reads the configuration). *)
Theorem unknown_sender_is_dropped env s data a p :
  recvfrom_result env (List.length (trace s)) (inbound s) = Ok (data, a) ->
  outcome (parse data) = Ret (Some p) ->
  type p <> WSJTX_HEARTBEAT ->
  dict_get (ident p) (sources s) = None ->
  let s' := snd (inbound_section env s) in
  same_table s s' /\ sends (trace s') = sends (trace s).
Proof.
  intros Hrecv Hp Ht Habs. cbv zeta.
  rewrite (inbound_section_unfold env s data a p Hrecv Hp).
  unfold bind. rewrite find_source_unknown by (destruct s; assumption).
  rewrite forward_unfold. unfold bind.
  match goal with
  | |- context [config env ?st] =>
      pose proof (config_frame env st) as Hf;
      destruct (config env st) as [rc s1]
  end.
  cbn [snd] in Hf. destruct Hf as [(F1 & F2 & F3) (l & Hl & HF)].
  assert (Hs1 : same_table s s1 /\ sends (trace s1) = sends (trace s)).
  { destruct s as [lc cf inb srcs tr ns].
    cbn [trace sources inbound next_sock set_trace] in *.
    split; [repeat split; assumption |].
    rewrite Hl, !sends_app, (sends_config_events l HF). cbn [sends].
    rewrite !app_nil_r. reflexivity. }
  destruct rc as [c | e |]; cbn [snd]; try exact Hs1.
  rewrite forward_loop_no_source. exact Hs1.
Qed.

Lemma unknown_sender_is_dropped_witness :
  same_table ready_state
    (snd (inbound_section (arriving one_destination [0%nat] status_FT101 addr_B)
            ready_state)).
Proof.
  refine (proj1 (unknown_sender_is_dropped
                   (arriving one_destination [0%nat] status_FT101 addr_B)
                   ready_state status_FT101 addr_B parsed_status_FT101
                   _ _ _ _)).
  - reflexivity.
  - vm_compute. reflexivity.
  - discriminate.
  - vm_compute. reflexivity.
Defined.

(** ** Cycles in which little happens *)

Lemma reply_loop_none_readable env readable items s :
  (forall item, In item items -> mem_sock (snd item) readable = false) ->
  for_ items (reply_body env readable) s = (Ret tt, s).
Proof.
  revert s. induction items as [| [owner k] items IH]; intros s H;
    [reflexivity |].
  cbn [for_]. unfold bind. unfold reply_body at 1.
  pose proof (H (owner, k) (or_introl eq_refl)) as Hk. cbn [snd] in Hk.
  rewrite Hk. cbn [negb ret].
  apply IH. intros item Hi. apply H. right. exact Hi.
Qed.

(** X5: a cycle in which [select] reports none of the forwarder's sockets
    readable does nothing but that call: nothing is received or sent, the
    table is as it was, and the configuration file is not even looked
    at. *)
Theorem idle_cycle_only_selects env s readable :
  select_result env (List.length (trace s)) = Ok readable ->
  mem_sock (inbound s) readable = false ->
  (forall item, In item (proxysocks_of (sources s)) ->
                mem_sock (snd item) readable = false) ->
  run_one env s = (Ret tt, selected s).
Proof.
  intros Hsel Hin Hnone. unfold run_one.
  unfold bind at 1. cbn [gets]. unfold bind at 1. cbn [gets].
  unfold bind at 1. unfold call. rewrite Hsel.
  unfold bind at 1. rewrite Hin. cbn [ret].
  apply reply_loop_none_readable. exact Hnone.
Qed.

Lemma idle_cycle_only_selects_witness :
  run_one (quiet one_destination) discovered_state
  = (Ret tt, selected discovered_state).
Proof.
  apply (idle_cycle_only_selects (quiet one_destination) discovered_state []).
  - reflexivity.
  - reflexivity.
  - intros item _. reflexivity.
Defined.

(** X6: when reading a dedicated socket fails, a connection reset is
    swallowed and the loop goes on to the next socket; any other exception
    leaves the loop and the cycle.  In both cases nothing is sent. *)
Theorem reply_recv_error env readable owner k s e :
  mem_sock k readable = true ->
  recvfrom_result env (List.length (trace s)) k = Err e ->
  reply_body env readable (owner, k) s
  = (if exn_eqb e ConnectionResetError then Ret tt else Raise e,
     set_trace (trace s ++ [RecvFrom k]) s).
Proof.
  intros Hmem Hrecv. destruct s as [lc cf inb srcs tr ns].
  cbn [trace] in Hrecv. unfold reply_body. rewrite Hmem. exec.
  rewrite Hrecv. destruct e; reflexivity.
Qed.

Lemma reply_recv_error_witness :
  reply_body
    {| stat_mtime := fun _ => Ok 1;
       load_yaml := fun _ => Ok one_destination;
       bind_result := fun _ => Ok tt;
       select_result := fun _ => Ok [1%nat];
       recvfrom_result := fun _ _ => Err ConnectionResetError;
       sendto_result := fun _ _ _ _ => Ok tt;
       logging_other := logging_names |}
    [1%nat] (str_of "FT-101", 1%nat) discovered_state
  = (Ret tt, set_trace (trace discovered_state ++ [RecvFrom 1%nat])
                       discovered_state).
Proof.
  apply (reply_recv_error _ [1%nat] (str_of "FT-101") 1%nat discovered_state
           ConnectionResetError); reflexivity.
Defined.

(** ** The configuration *)

(** X7: when the file is newer but cannot be loaded (any [Exception]
    from opening or parsing it), the [config] property logs the failure and
    returns the configuration it had; the recorded modification time stays,
    so that the load is tried again at the next read. *)
Theorem config_reload_failure_keeps_old env s m e :
  stat_mtime env (List.length (trace s)) = Ok m ->
  m > _last_config s ->
  load_yaml env (S (List.length (trace s))) = Err e ->
  is_Exception e = true ->
  config env s
  = (Ret (_config s),
     set_trace (trace s ++ [Stat; LoadYaml; Log ERROR (FailedToLoadConfig e)])
               s).
Proof.
  intros Hstat Hnew Hload He.
  assert (Hgt : (m >? _last_config s) = true) by (apply Z.gtb_lt; lia).
  destruct s as [lc cf inb srcs tr ns]. cbn [trace _last_config] in *.
  unfold config, _parse_config. exec. rewrite Hstat. exec. rewrite Hgt.
  exec. rewrite Hload. exec. rewrite He. exec.
  rewrite <- !app_assoc. reflexivity.
Qed.

Lemma config_reload_failure_keeps_old_witness :
  config
    {| stat_mtime := fun _ => Ok 5;
       load_yaml := fun _ => Err OSError;
       bind_result := fun _ => Ok tt;
       select_result := fun _ => Ok [];
       recvfrom_result := fun _ _ => Err OSError;
       sendto_result := fun _ _ _ _ => Ok tt;
       logging_other := logging_names |}
    ready_state
  = (Ret (_config ready_state),
     set_trace (trace ready_state
                ++ [Stat; LoadYaml; Log ERROR (FailedToLoadConfig OSError)])
               ready_state).
Proof.
  apply (config_reload_failure_keeps_old _ ready_state 5 OSError).
  - reflexivity.
  - vm_compute. reflexivity.
  - reflexivity.
  - reflexivity.
Defined.

(** X8: a file that is not newer than the recorded time, the same time
    included, is not opened: the property returns the configuration it
    has after one [stat]. *)
Theorem config_not_reloaded_when_not_newer env s m :
  stat_mtime env (List.length (trace s)) = Ok m ->
  m <= _last_config s ->
  config env s = (Ret (_config s), set_trace (trace s ++ [Stat]) s).
Proof.
  intros Hstat Hold.
  assert (Hgt : (m >? _last_config s) = false).
  { rewrite Z.gtb_ltb. apply Z.ltb_ge. exact Hold. }
  destruct s as [lc cf inb srcs tr ns]. cbn [trace _last_config] in *.
  unfold config. exec. rewrite Hstat. exec. rewrite Hgt. reflexivity.
Qed.

Lemma config_not_reloaded_when_not_newer_witness :
  config (quiet empty_config) ready_state
  = (Ret (_config ready_state),
     set_trace (trace ready_state ++ [Stat]) ready_state).
Proof.
  apply (config_not_reloaded_when_not_newer _ ready_state 1).
  - reflexivity.
  - vm_compute. discriminate.
Defined.

(** X9: a document whose [loglevel] is not one of the level constants is
    installed all the same, with the new modification time, and the
    property returns it; what is logged depends on what the [logging]
    module holds under that name.  If it holds nothing, [getattr] raises
    [AttributeError] and the name is logged as an unknown loglevel, the
    level of the logger being left alone.  If it holds an object that is
    no level (the function [debug], say), the name is not reported as
    unknown: [setLevel] raises [TypeError] ([ValueError] for a string
    that names no level), which leaves [_parse_config] and is logged by
    the property as a failure to load the configuration.  An integer found
    there (the flag [raiseExceptions]) is set as the level. *)
Theorem config_unknown_loglevel env s m c name m2 :
  stat_mtime env (List.length (trace s)) = Ok m ->
  m > _last_config s ->
  load_yaml env (S (List.length (trace s))) = Ok c ->
  loglevel c = Some name ->
  logging_level name = None ->
  stat_mtime env (S (S (S (List.length (trace s))))) = Ok m2 ->
  config env s
  = (Ret c,
     set_trace
       (trace s
        ++ [Stat; LoadYaml; Log INFO LoadedConfig; Stat;
            match logging_other env name with
            | None => Log ERROR (UnknownLoglevel name)
            | Some PyOther => Log ERROR (FailedToLoadConfig TypeError)
            | Some (PyStr level) =>
                match logging_level level with
                | Some n => SetLevel n
                | None => Log ERROR (FailedToLoadConfig ValueError)
                end
            | Some (PyInt n) => SetLevel n
            end])
       (set_last_config m2 (set_config c s))).
Proof.
  intros Hstat Hnew Hload Hname Hlevel Hstat2.
  assert (Hgt : (m >? _last_config s) = true) by (apply Z.gtb_lt; lia).
  destruct s as [lc cf inb srcs tr ns]. cbn [trace _last_config] in *.
  unfold config, _parse_config. exec. rewrite Hstat. exec. rewrite Hgt.
  exec. rewrite Hload. exec. rewrite Hstat2. exec.
  rewrite Hname. cbn [default]. rewrite Hlevel.
  destruct (logging_other env name) as [[n | level |] |]; exec.
  - rewrite <- !app_assoc. reflexivity.
  - destruct (logging_level level); exec; cbv [is_Exception]; exec;
      rewrite <- !app_assoc; reflexivity.
  - cbv [is_Exception]. exec. rewrite <- !app_assoc. reflexivity.
  - rewrite Hname. exec. rewrite <- !app_assoc. reflexivity.
Qed.

Lemma config_unknown_loglevel_witness :
  config
    {| stat_mtime := fun _ => Ok 5;
       load_yaml := fun _ =>
         Ok {| loglevel := Some "debug"%string; source := None;
               destinations := None |};
       bind_result := fun _ => Ok tt;
       select_result := fun _ => Ok [];
       recvfrom_result := fun _ _ => Err OSError;
       sendto_result := fun _ _ _ _ => Ok tt;
       logging_other := logging_names |}
    ready_state
  = (Ret {| loglevel := Some "debug"%string; source := None;
            destinations := None |},
     set_trace
       (trace ready_state
        ++ [Stat; LoadYaml; Log INFO LoadedConfig; Stat;
            Log ERROR (FailedToLoadConfig TypeError)])
       (set_last_config 5
          (set_config {| loglevel := Some "debug"%string; source := None;
                         destinations := None |} ready_state))).
Proof.
  apply (config_unknown_loglevel
           {| stat_mtime := fun _ => Ok 5;
              load_yaml := fun _ =>
                Ok {| loglevel := Some "debug"%string; source := None;
                      destinations := None |};
              bind_result := fun _ => Ok tt;
              select_result := fun _ => Ok [];
              recvfrom_result := fun _ _ => Err OSError;
              sendto_result := fun _ _ _ _ => Ok tt;
              logging_other := logging_names |}
           ready_state 5
           {| loglevel := Some "debug"%string; source := None;
              destinations := None |} "debug"%string 5).
  - reflexivity.
  - vm_compute. reflexivity.
  - reflexivity.
  - reflexivity.
  - reflexivity.
  - reflexivity.
Defined.

(** X10: a destination without a [port] stops the loop over the
    destinations with [KeyError], with or without a source: the
    destinations before it have been served, it and those after it get
    nothing. *)
Theorem destination_without_port_aborts env source data pre d post s :
  d_port d = None ->
  fst (for_ pre (forward_body env source data) s) = Ret tt ->
  for_ (pre ++ d :: post) (forward_body env source data) s
  = (Raise KeyError, snd (for_ pre (forward_body env source data) s)).
Proof.
  intros Hd. revert s. induction pre as [| x pre IH]; intros s Hpre.
  - cbn [app for_ snd ret]. unfold bind.
    destruct s as [lc cf inb srcs tr ns]. unfold forward_body.
    rewrite Hd. reflexivity.
  - cbn [app for_] in *. unfold bind in *.
    destruct (forward_body env source data x s) as [[[] | e |] s1];
      cbn [fst snd] in *; try discriminate Hpre.
    apply IH. exact Hpre.
Qed.

Lemma destination_without_port_aborts_witness :
  for_ ([] ++ {| d_host := None; d_port := None; d_name := None |}
           :: [{| d_host := None; d_port := Some 2333; d_name := None |}])
       (forward_body (quiet one_destination)
          (Some {| src_ident := str_of "FT-101"; dest := addr_A;
                   proxysock := 1%nat |}) status_FT101)
       discovered_state
  = (Raise KeyError,
     snd (for_ [] (forward_body (quiet one_destination)
                     (Some {| src_ident := str_of "FT-101"; dest := addr_A;
                              proxysock := 1%nat |}) status_FT101)
            discovered_state)).
Proof.
  apply (destination_without_port_aborts (quiet one_destination)); reflexivity.
Defined.

(** ** Start-up *)

(** X11: when the configuration file cannot be examined ([os.stat]
    raises, as it does for a missing file), [setup] ends with that
    exception before it binds the inbound socket. *)
Theorem setup_fails_without_config_file env s e :
  stat_mtime env (S (S (List.length (trace s)))) = Err e ->
  fst (setup env s) = Raise e
  /\ trace (snd (setup env s))
     = trace s ++ [NewSocket (next_sock s); SetBlocking (next_sock s); Stat].
Proof.
  intro Hstat. destruct s as [lc cf inb srcs tr ns]. cbn [trace] in Hstat.
  unfold setup, config. exec. rewrite Hstat. exec.
  rewrite <- !app_assoc. split; reflexivity.
Qed.

Lemma setup_fails_without_config_file_witness :
  fst (setup
         {| stat_mtime := fun _ => Err OSError;
            load_yaml := fun _ => Ok empty_config;
            bind_result := fun _ => Ok tt;
            select_result := fun _ => Ok [];
            recvfrom_result := fun _ _ => Err OSError;
            sendto_result := fun _ _ _ _ => Ok tt;
            logging_other := logging_names |}
         fresh)
  = Raise OSError.
Proof.
  refine (proj1 (setup_fails_without_config_file _ fresh OSError _)).
  reflexivity.
Defined.

(** X12: when the file is there but cannot be loaded, [setup] does not
    fail: the failure is logged, the configuration stays empty, and the
    forwarder listens on 0.0.0.0:2237 with no destination; the recorded
    modification time stays 0, so that every later read of the
    configuration tries the load again. *)
Theorem setup_survives_unloadable_config env s m e :
  stat_mtime env (S (S (List.length (trace s)))) = Ok m ->
  0 < m ->
  load_yaml env (S (S (S (List.length (trace s))))) = Err e ->
  is_Exception e = true ->
  bind_result env (S (S (S (S (S (List.length (trace s))))))) = Ok tt ->
  setup env s
  = (Ret tt,
     {| _last_config := 0; _config := empty_config;
        inbound := next_sock s; sources := [];
        trace := trace s
                 ++ [NewSocket (next_sock s); SetBlocking (next_sock s);
                     Stat; LoadYaml; Log ERROR (FailedToLoadConfig e);
                     Bind (next_sock s) ("0.0.0.0"%string, 2237);
                     Log DEBUG (ListeningOn ("0.0.0.0"%string, 2237))];
        next_sock := S (next_sock s) |}).
Proof.
  intros Hstat Hm Hload He Hbind.
  assert (Hgt : (m >? 0) = true) by (apply Z.gtb_lt; lia).
  destruct s as [lc cf inb srcs tr ns]. cbn [trace next_sock] in *.
  unfold setup, config, _parse_config. exec. rewrite Hstat. exec.
  rewrite Hgt. exec. rewrite Hload. exec. rewrite He. exec.
  rewrite Hbind. exec. rewrite <- !app_assoc. reflexivity.
Qed.

Lemma setup_survives_unloadable_config_witness :
  fst (setup
         {| stat_mtime := fun _ => Ok 5;
            load_yaml := fun _ => Err UnicodeDecodeError;
            bind_result := fun _ => Ok tt;
            select_result := fun _ => Ok [];
            recvfrom_result := fun _ _ => Err OSError;
            sendto_result := fun _ _ _ _ => Ok tt;
            logging_other := logging_names |}
         fresh)
  = Ret tt.
Proof.
  rewrite (setup_survives_unloadable_config _ fresh 5 UnicodeDecodeError);
    reflexivity.
Defined.

(** ** The shape of the table *)

Lemma dict_get_None_not_in V k (d : dict V) :
  dict_get k d = None <-> ~ In k (dict_keys d).
Proof.
  unfold dict_keys. induction d as [| [k' v'] d IH]; cbn [dict_get map fst In].
  - tauto.
  - destruct (pystr_eqb k k') eqn:E.
    + apply pystr_eqb_eq in E. subst k'. split; [discriminate | tauto].
    + assert (k' <> k).
      { intro Hk. subst k'. rewrite pystr_eqb_refl in E. discriminate. }
      rewrite IH. tauto.
Qed.

(** Assigning to a key that is present changes the value at its place. *)
Lemma dict_set_present_split V k v v0 (d : dict V) :
  dict_get k d = Some v0 ->
  exists d1 d2, d = d1 ++ (k, v0) :: d2
                /\ dict_set k v d = d1 ++ (k, v) :: d2.
Proof.
  induction d as [| [k' v'] d IH]; cbn [dict_get dict_set]; [discriminate |].
  destruct (pystr_eqb k k') eqn:E.
  - apply pystr_eqb_eq in E. subst k'. intro H. injection H as ->.
    exists [], d. split; reflexivity.
  - intro H. destruct (IH H) as (d1 & d2 & H1 & H2).
    exists ((k', v') :: d1), d2. cbn [app]. rewrite <- H1, H2.
    split; reflexivity.
Qed.

Lemma table_ok_same_table s s' : same_table s s' -> table_ok s -> table_ok s'.
Proof.
  intros (Hs & Hi & Hn). unfold table_ok. rewrite Hs, Hi, Hn. tauto.
Qed.

Lemma find_source_table_ok p a s :
  table_ok s -> table_ok (snd (find_source p a s)).
Proof.
  intro Hok. destruct p as [p |]; [| exact Hok].
  destruct (dict_get (ident p) (sources s)) as [e |] eqn:E.
  - rewrite (find_source_known p a s e E). cbn [snd].
    destruct (dict_set_present_split _ (ident p) (set_dest a e) e _ E)
      as (d1 & d2 & H1 & H2).
    destruct Hok as (HF & HK & HS & HI).
    destruct s as [lc cf inb srcs tr ns].
    cbn [sources inbound next_sock set_sources] in *.
    unfold table_ok. cbn [sources inbound next_sock set_sources].
    rewrite H2. subst srcs. unfold dict_keys, dict_values in *.
    rewrite !map_app in *. cbn [map fst snd set_dest proxysock] in *.
    split; [| split; [exact HK | split; [exact HS | exact HI]]].
    apply Forall_app in HF. destruct HF as [HF1 HF2].
    apply Forall_app. split; [exact HF1 |].
    inversion HF2 as [| x l Hx Hl]; subst.
    constructor; [| exact Hl]. exact Hx.
  - destruct (Z.eqb_spec (type p) WSJTX_HEARTBEAT) as [Ht | Ht].
    + destruct (version p) as [v |] eqn:Ev.
      * destruct (revision p) as [r |] eqn:Er.
        -- rewrite (find_source_new p a s v r E Ht Ev Er). cbn [snd].
           destruct Hok as (HF & HK & HS & HI).
           unfold table_ok. cbn [sources inbound next_sock].
           assert (Hlt : forall x, In x (map proxysock (dict_values (sources s)))
                                   -> (x < next_sock s)%nat).
           { intros x Hx. unfold dict_values in Hx. rewrite map_map in Hx.
             apply in_map_iff in Hx. destruct Hx as (item & <- & Hitem).
             rewrite Forall_forall in HF. apply (HF item Hitem). }
           split; [| split; [| split]].
           ++ apply Forall_app. split.
              ** eapply Forall_impl; [| exact HF].
                 intros item (H1 & H2 & H3). cbn beta. auto with arith.
              ** constructor; [| constructor].
                 cbn [fst snd src_ident proxysock].
                 split; [reflexivity | split; [auto with arith | lia]].
           ++ unfold dict_keys. rewrite map_app. cbn [map fst].
              apply NoDup_app; [exact HK | repeat constructor; intros [] |].
              intros k Hk [<- | []].
              apply (proj1 (dict_get_None_not_in _ _ _) E). exact Hk.
           ++ unfold dict_values. rewrite !map_app. cbn [map snd proxysock].
              apply NoDup_app; [exact HS | repeat constructor; intros [] |].
              intros k Hk [<- | []]. apply Hlt in Hk. lia.
           ++ auto with arith.
        -- destruct s as [lc cf inb srcs tr ns]. cbn [sources] in E.
           unfold find_source. exec. rewrite E, Ht, Ev, Er. exact Hok.
      * destruct s as [lc cf inb srcs tr ns]. cbn [sources] in E.
        unfold find_source. exec. rewrite E, Ht, Ev. exact Hok.
    + rewrite (find_source_unknown p a s E Ht). exact Hok.
Qed.

Lemma keeps_ok_trans (a b c : state) :
  (table_ok a -> table_ok b) -> (table_ok b -> table_ok c) ->
  table_ok a -> table_ok c.
Proof. tauto. Qed.

Lemma frame_keeps_ok P A (m : M state A) :
  post (frame P) m -> post (fun s s' => table_ok s -> table_ok s') m.
Proof.
  intros H s. destruct (H s) as [Ht _]. apply table_ok_same_table. exact Ht.
Qed.

Lemma run_one_table_ok env :
  post (fun s s' => table_ok s -> table_ok s') (run_one env).
Proof.
  pose (R := fun s s' : state => table_ok s -> table_ok s').
  assert (Rrefl : forall s, R s s) by (intros s H; exact H).
  assert (Rtrans : forall a b c, R a b -> R b c -> R a c)
    by (intros a b c Hab Hbc Ha; exact (keeps_ok_trans a b c Hab Hbc Ha)).
  fold R. unfold run_one.
  apply (post_bind _ _ Rtrans); [apply (post_gets _ _ Rrefl) | intro srcs].
  apply (post_bind _ _ Rtrans); [apply (post_gets _ _ Rrefl) | intro inb].
  apply (post_bind _ _ Rtrans).
  { apply (frame_keeps_ok any_event). frame_tac. }
  intro readable.
  apply (post_bind _ _ Rtrans).
  { destruct (mem_sock inb readable); [| apply (post_ret _ _ Rrefl)].
    unfold inbound_section.
    apply (post_bind _ _ Rtrans); [apply (post_gets _ _ Rrefl) | intro i].
    apply (post_bind _ _ Rtrans);
      [apply (frame_keeps_ok any_event); frame_tac | intros [data a]].
    apply (post_bind _ _ Rtrans);
      [apply (frame_keeps_ok any_event); frame_tac | intro p].
    apply (post_bind _ _ Rtrans);
      [intros s H; apply find_source_table_ok, H | intro source].
    apply (frame_keeps_ok any_event). apply forward_frame. }
  intros _. apply (frame_keeps_ok sent_via). apply reply_loop_frame.
Qed.

Lemma run_cycles_table_ok env n s : table_ok s -> table_ok (run_cycles env n s).
Proof.
  revert s. induction n as [| n IH]; intros s H; cbn [run_cycles];
    [exact H |].
  apply IH. apply (run_one_table_ok env s). exact H.
Qed.

Lemma setup_table_ok env s :
  fst (setup env s) = Ret tt -> table_ok (snd (setup env s)).
Proof.
  destruct s as [lc cf inb srcs tr ns]. unfold setup. exec.
  match goal with
  | |- context [config env ?st] =>
      pose proof (config_frame env st) as Hf;
      destruct (config env st) as [[c | e |] [lc' cf' inb' srcs' tr' ns']]
  end; exec; try discriminate.
  destruct Hf as [(_ & Hi & Hn) _]. cbn [snd inbound next_sock] in Hi, Hn.
  subst inb' ns'.
  destruct (bind_result env _) as [[] | e]; exec; [| discriminate].
  intros _. unfold table_ok. cbn [sources inbound next_sock dict_keys
                                  dict_values map].
  repeat split; try constructor. 
Qed.

(** X13: the table that [setup] leaves, and every table any number of
    cycles makes of it, is well formed: every entry is filed under its own
    identity, no identity and no dedicated socket occurs twice, and no
    dedicated socket is the inbound socket. *)
Theorem table_stays_well_formed env s n :
  (table_ok s -> table_ok (run_cycles env n s))
  /\ (fst (setup env s) = Ret tt ->
      table_ok (run_cycles env n (snd (setup env s)))).
Proof.
  split.
  - apply run_cycles_table_ok.
  - intro H. apply run_cycles_table_ok, setup_table_ok, H.
Qed.

Lemma table_stays_well_formed_witness :
  table_ok (run_cycles reopening 3 (snd (setup reopening fresh))).
Proof.
  refine (proj2 (table_stays_well_formed reopening fresh 3) _).
  vm_compute. reflexivity.
Defined.

Lemma proxysocks_fold (l : list WSJTXSource) :
  NoDup (map src_ident l) ->
  forall acc : dict sock,
    (forall src, In src l -> ~ In (src_ident src) (dict_keys acc)) ->
    fold_left (fun acc src => dict_set (src_ident src) (proxysock src) acc)
              l acc
    = acc ++ map (fun src => (src_ident src, proxysock src)) l.
Proof.
  induction l as [| x l IH]; intros Hnd acc Hacc; cbn [fold_left map].
  - rewrite app_nil_r. reflexivity.
  - cbn [map] in Hnd. apply NoDup_cons_iff in Hnd. destruct Hnd as [Hx Hnd].
    rewrite dict_set_absent
      by (apply dict_get_None_not_in, Hacc; left; reflexivity).
    rewrite IH; [rewrite <- app_assoc; reflexivity | exact Hnd |].
    intros src Hsrc Hin. unfold dict_keys in Hin. rewrite map_app in Hin.
    apply in_app_or in Hin. destruct Hin as [Hin | [Heq | []]].
    + apply (Hacc src (or_intror Hsrc)). exact Hin.
    + cbn [fst] in Heq. apply Hx. rewrite Heq.
      apply in_map. exact Hsrc.
Qed.

(** X14: in a well-formed table the dictionary of sockets that [run_one]
    builds at the start of a cycle has one item for every entry, in the
    order of the table, so that [select] watches the inbound socket and
    the dedicated socket of every entry. *)
Theorem every_entry_is_watched s :
  table_ok s ->
  proxysocks_of (sources s)
  = map (fun item => (fst item, proxysock (snd item))) (sources s)
  /\ trace (selected s)
     = trace s ++ [Select (inbound s
                           :: map proxysock (dict_values (sources s)))].
Proof.
  intros (HF & HK & _).
  assert (Hident : map src_ident (dict_values (sources s))
                   = dict_keys (sources s)).
  { unfold dict_values, dict_keys. rewrite map_map.
    apply map_ext_in. intros item Hitem.
    rewrite Forall_forall in HF. apply (HF item Hitem). }
  assert (Hps : proxysocks_of (sources s)
                = map (fun item => (fst item, proxysock (snd item)))
                      (sources s)).
  { unfold proxysocks_of. rewrite proxysocks_fold.
    - cbn [app]. unfold dict_values. rewrite map_map.
      apply map_ext_in. intros item Hitem.
      rewrite Forall_forall in HF. destruct (HF item Hitem) as (-> & _).
      reflexivity.
    - rewrite Hident. exact HK.
    - intros src _ []. }
  split; [exact Hps |].
  unfold selected. destruct s as [lc cf inb srcs tr ns].
  cbn [trace set_trace sources inbound] in *. rewrite Hps.
  unfold dict_values. rewrite !map_map. reflexivity.
Qed.

Lemma every_entry_is_watched_witness :
  proxysocks_of (sources discovered_state)
  = map (fun item => (fst item, proxysock (snd item)))
        (sources discovered_state).
Proof.
  destruct (every_entry_is_watched discovered_state) as [H _];
    [| exact H].
  vm_compute.
  split; [| split; [| split]].
  - constructor; [| constructor].
    split; [reflexivity | split; [repeat constructor | discriminate]].
  - constructor; [intros [] | constructor].
  - constructor; [intros [] | constructor].
  - repeat constructor.
Defined.

End QsoFwdMore.

(* ===================================================================== *)
(** * More about the serial proxy *)
(* ===================================================================== *)

Module FlRigProxyMore.
Import FlRigProxy FlRigProxyFacts.

(** Like [exec], but membership in the list [select] returned stays
    folded. *)
Ltac step :=
  cbv beta iota zeta delta
    [bind ret raise gets modify try_ try_else call emit log getattr
     select recv send socket_socket all_some option_map truthy
     running _flrig_sock _rigctlcom_sock _rigctlcom _thread thread trace
     next_sock next_proc set_running set_flrig_sock set_rigctlcom_sock
     set_rigctlcom set_thread set_trace set_next_sock set_next_proc
     fst snd negb andb is_socket_error is_Exception];
  rewrite ?length_app; cbn [List.length]; rewrite ?Nat.add_1_r.

(** ** Connecting *)

(** A refused [connect] costs one socket and nothing else. *)
Lemma refused_attempt port serial exe env fuel s :
  connect_result env (S (List.length (trace s))) = Err ConnectionRefusedError ->
  try_ (attempt port serial exe env fuel) on_exception s
  = (Ret tt,
     set_trace (trace s ++ [NewSocket (next_sock s);
                            Connect (next_sock s) ("127.0.0.1"%string, port)])
       (set_next_sock (S (next_sock s))
          (set_flrig_sock (Some (next_sock s)) s))).
Proof.
  intro Hc. destruct s as [run fs rs rc th0 th tr ns np]. cbn [trace] in Hc.
  unfold attempt, _connect_flrig. exec. rewrite Hc. exec.
  rewrite <- !app_assoc. reflexivity.
Qed.

(** X15: while flrig refuses the connection, [thread_loop] tries again
    at once, as often as it is given turns: it never raises, logs nothing,
    resets nothing and closes nothing; each try makes a new socket and
    calls [connect] on it, and the child process and its socket, if any,
    stay as they are. *)
Theorem refused_connect_is_retried port serial exe env :
  (forall t, connect_result env t = Err ConnectionRefusedError) ->
  forall fuel s,
    running s = true ->
    exists s',
      thread_loop port serial exe env fuel s = (OutOfFuel, s')
      /\ running s' = true
      /\ _rigctlcom s' = _rigctlcom s
      /\ _rigctlcom_sock s' = _rigctlcom_sock s
      /\ exists new,
           trace s' = trace s ++ new
           /\ Forall connect_attempt new
           /\ List.length new = (2 * fuel)%nat.
Proof.
  intro Href. induction fuel as [| fuel IH]; intros s Hrun.
  - exists s. cbn [thread_loop]. repeat split; try reflexivity; try assumption.
    exists []. rewrite app_nil_r. repeat split. constructor.
  - cbn [thread_loop]. unfold bind at 1. cbn [gets]. rewrite Hrun.
    unfold bind at 1.
    rewrite (refused_attempt port serial exe env fuel s (Href _)).
    match goal with
    | |- context [thread_loop _ _ _ _ fuel ?st] =>
        destruct (IH st) as (s' & Hl & Hr & Hc & Hs & new & Ht & Hf & Hn)
    end.
    { destruct s; exact Hrun. }
    exists s'. rewrite Hl. split; [reflexivity |]. split; [exact Hr |].
    destruct s as [run fs rs rc th0 th tr ns np].
    cbn [_rigctlcom _rigctlcom_sock trace set_trace set_next_sock
         set_flrig_sock next_sock] in *.
    split; [exact Hc | split; [exact Hs |]].
    eexists. split; [rewrite Ht, <- app_assoc; reflexivity |].
    split.
    + cbn [app]. constructor; [exact I |]. constructor; [exact I | exact Hf].
    + cbn [app List.length]. rewrite Hn. lia.
Qed.

Lemma refused_connect_is_retried_witness :
  exists s',
    thread_loop 12345 "/dev/ttyS0" "rigctlcom" refusing 50 started_state
    = (OutOfFuel, s')
    /\ running s' = true
    /\ _rigctlcom s' = _rigctlcom started_state
    /\ _rigctlcom_sock s' = _rigctlcom_sock started_state
    /\ exists new,
         trace s' = trace started_state ++ new
         /\ Forall connect_attempt new
         /\ List.length new = (2 * 50)%nat.
Proof.
  apply (refused_connect_is_retried 12345 "/dev/ttyS0" "rigctlcom" refusing).
  - intro t. reflexivity.
  - reflexivity.
Defined.

(** ** Other failures *)

(** X16: an exception of the [try] suite that is no socket error but is
    an [Exception] is logged as unexpected and followed by the reset, after
    which nothing is held and the loop goes on; an exception that is no
    [Exception] (a [KeyboardInterrupt]) passes through: the thread ends
    with it, and what it held stays open. *)
Theorem unexpected_exception_resets port serial exe env fuel s0 s1 e :
  attempt port serial exe env fuel s0 = (Raise e, s1) ->
  is_socket_error e = false ->
  (is_Exception e = true ->
   exists s2,
     try_ (attempt port serial exe env fuel) on_exception s0 = (Ret tt, s2)
     /\ released s2
     /\ exists l, trace s2 = trace s1 ++ Log ERROR (UnexpectedFailure e) :: l)
  /\ (is_Exception e = false ->
      try_ (attempt port serial exe env fuel) on_exception s0 = (Raise e, s1)).
Proof.
  intros Hatt Hsock. split; intro Hexc.
  - assert (Hh : on_exception e
                 = Some (log ERROR (UnexpectedFailure e) ;; _reset)).
    { destruct e; try discriminate Hsock; try discriminate Hexc;
        reflexivity. }
    set (s1' := set_trace (trace s1 ++ [Log ERROR (UnexpectedFailure e)]) s1).
    assert (Hstep : forall s, exists s' l,
               _reset s = (Ret tt, s') /\ released s'
               /\ trace s' = trace s ++ l).
    { intros [run fs rs rc th0 th tr ns np]. unfold _reset, released.
      destruct rs as [r |], rc as [p |], fs as [f |]; exec;
        eexists; eexists;
        (split; [reflexivity |]; split; [repeat split |];
         cbn [trace]; rewrite <- ?app_assoc; cbn [app];
         first [reflexivity | symmetry; apply app_nil_r]). }
    destruct (Hstep s1') as (s2 & l & Hreset & Hrel & Ht).
    exists s2. split; [| split; [exact Hrel |]].
    + unfold try_, try_else. rewrite Hatt, Hh.
      unfold bind at 1. unfold log, emit, modify. fold s1'.
      rewrite Hreset. reflexivity.
    + exists l. rewrite Ht. destruct s1. cbn [s1' trace set_trace].
      rewrite <- app_assoc. reflexivity.
  - unfold try_, try_else. rewrite Hatt.
    destruct e; try discriminate Hsock; try discriminate Hexc. reflexivity.
Qed.

Lemma unexpected_exception_resets_witness :
  exists s2,
    try_ (attempt 12345 "/dev/ttyS0" "rigctlcom"
            {| connect_result := fun _ => Err TypeError;
               listen_result := fun _ => Ok tt;
               getsockname_result := fun _ => Ok ("127.0.0.1"%string, 40000);
               popen_result := fun _ => Ok tt;
               accept_result := fun _ => Ok tt;
               select_result := fun _ => Ok [];
               recv_result := fun _ _ => Ok [];
               send_result := fun _ _ data => Ok (len data) |} 1)
         on_exception started_state
    = (Ret tt, s2)
    /\ released s2
    /\ exists l,
         trace s2
         = trace (snd (attempt 12345 "/dev/ttyS0" "rigctlcom"
                         {| connect_result := fun _ => Err TypeError;
                            listen_result := fun _ => Ok tt;
                            getsockname_result :=
                              fun _ => Ok ("127.0.0.1"%string, 40000);
                            popen_result := fun _ => Ok tt;
                            accept_result := fun _ => Ok tt;
                            select_result := fun _ => Ok [];
                            recv_result := fun _ _ => Ok [];
                            send_result := fun _ _ data => Ok (len data) |}
                         1 started_state))
           ++ Log ERROR (UnexpectedFailure TypeError) :: l.
Proof.
  refine (proj1 (unexpected_exception_resets 12345 "/dev/ttyS0" "rigctlcom"
                   _ 1 started_state _ TypeError _ _) _).
  - vm_compute. reflexivity.
  - reflexivity.
  - reflexivity.
Defined.

(** ** The bytes relayed *)

Lemma chunks_sent_app k a b :
  chunks_sent k (a ++ b) = chunks_sent k a ++ chunks_sent k b.
Proof.
  induction a as [| e a IH]; [reflexivity |].
  destruct e; cbn [app chunks_sent]; rewrite ?IH; try reflexivity.
  destruct (Nat.eqb s k); reflexivity.
Qed.

Lemma chunks_read_app env k a b : forall t,
  chunks_read env k t (a ++ b)
  = chunks_read env k t a ++ chunks_read env k (t + List.length a) b.
Proof.
  induction a as [| e a IH]; intro t.
  - cbn [app chunks_read List.length]. rewrite Nat.add_0_r. reflexivity.
  - cbn [List.length]. replace (t + S (List.length a))%nat
      with (S t + List.length a)%nat by lia.
    destruct e; cbn [app chunks_read]; rewrite ?IH; try reflexivity.
    destruct (Nat.eqb s k); [| reflexivity].
    destruct (recv_result env t k); reflexivity.
Qed.

(** A turn that completes has sent what it has read, each way, and has
    left the object as it was. *)
Lemma proxy_turn_exact env s r f s1 :
  _rigctlcom_sock s = Some r -> _flrig_sock s = Some f -> r <> f ->
  proxy_turn env [Some r; Some f] s = (Ret tt, s1) ->
  _rigctlcom_sock s1 = Some r /\ _flrig_sock s1 = Some f
  /\ exists new,
       trace s1 = trace s ++ new
       /\ chunks_sent f new = chunks_read env r (List.length (trace s)) new
       /\ chunks_sent r new = chunks_read env f (List.length (trace s)) new.
Proof.
  destruct s as [run fs rs rc th0 th tr ns np].
  cbn [_rigctlcom_sock _flrig_sock trace]. intros -> -> Hne.
  assert (Hrf : Nat.eqb r f = false) by (apply Nat.eqb_neq; exact Hne).
  assert (Hfr : Nat.eqb f r = false)
    by (apply Nat.eqb_neq; intro; apply Hne; auto).
  unfold proxy_turn. step.
  destruct (select_result env (List.length tr)) as [l | e]; step;
    [| discriminate].
  destruct (mem_opt (Some r) l); step.
  - destruct (recv_result env (S (List.length tr)) r) as [d1 | e] eqn:R1;
      step; [| discriminate].
    destruct (send_result env _ f d1) as [n1 | e]; step; [| discriminate].
    destruct (mem_opt (Some f) l); step.
    + destruct (recv_result env (S (S (S (List.length tr)))) f)
        as [d2 | e] eqn:R2; step; [| discriminate].
      destruct (send_result env _ r d2) as [n2 | e]; step; [| discriminate].
      intro H. injection H as <-. cbn [_rigctlcom_sock _flrig_sock trace].
      split; [reflexivity | split; [reflexivity |]].
      eexists. split; [rewrite <- !app_assoc; reflexivity |].
      cbn [app chunks_sent chunks_read].
      rewrite ?Nat.eqb_refl, ?Hrf, ?Hfr, ?R1, ?R2. split; reflexivity.
    + intro H. injection H as <-. cbn [_rigctlcom_sock _flrig_sock trace].
      split; [reflexivity | split; [reflexivity |]].
      eexists. split; [rewrite <- !app_assoc; reflexivity |].
      cbn [app chunks_sent chunks_read].
      rewrite ?Nat.eqb_refl, ?Hrf, ?Hfr, ?R1. split; reflexivity.
  - destruct (mem_opt (Some f) l); step.
    + destruct (recv_result env (S (List.length tr)) f) as [d2 | e] eqn:R2;
        step; [| discriminate].
      destruct (send_result env _ r d2) as [n2 | e]; step; [| discriminate].
      intro H. injection H as <-. cbn [_rigctlcom_sock _flrig_sock trace].
      split; [reflexivity | split; [reflexivity |]].
      eexists. split; [rewrite <- !app_assoc; reflexivity |].
      cbn [app chunks_sent chunks_read].
      rewrite ?Nat.eqb_refl, ?Hrf, ?Hfr, ?R2. split; reflexivity.
    + intro H. injection H as <-. cbn [_rigctlcom_sock _flrig_sock trace].
      split; [reflexivity | split; [reflexivity |]].
      exists [Select [r; f]]. split; [reflexivity |].
      split; reflexivity.
Qed.

(** A turn returns or raises; it is never cut short. *)
Lemma proxy_turn_ends env s r f s1 :
  _rigctlcom_sock s = Some r -> _flrig_sock s = Some f ->
  proxy_turn env [Some r; Some f] s <> (OutOfFuel, s1).
Proof.
  destruct s as [run fs rs rc th0 th tr ns np].
  cbn [_rigctlcom_sock _flrig_sock]. intros -> ->.
  unfold proxy_turn. step.
  destruct (select_result env (List.length tr)) as [l | e]; step;
    [| discriminate].
  destruct (mem_opt (Some r) l); step.
  - destruct (recv_result env (S (List.length tr)) r) as [d1 | e];
      step; [| discriminate].
    destruct (send_result env _ f d1) as [n1 | e]; step; [| discriminate].
    destruct (mem_opt (Some f) l); step; [| discriminate].
    destruct (recv_result env (S (S (S (List.length tr)))) f) as [d2 | e];
      step; [| discriminate].
    destruct (send_result env _ r d2) as [n2 | e]; step; discriminate.
  - destruct (mem_opt (Some f) l); step; [| discriminate].
    destruct (recv_result env (S (List.length tr)) f) as [d2 | e];
      step; [| discriminate].
    destruct (send_result env _ r d2) as [n2 | e]; step; discriminate.
Qed.

(** X17: as long as no call fails, the loop is a pure pipe: after any
    number of turns, the byte strings passed to [send] on the control
    socket are exactly those [recv] returned on the bridge socket, one for
    one and in the same order, and the other way round.  (What [send]
    returns, the number of bytes taken, is not looked at.) *)
Theorem relay_is_exact env r f :
  r <> f ->
  forall fuel s s',
    _rigctlcom_sock s = Some r -> _flrig_sock s = Some f ->
    _proxy_loop env fuel s = (OutOfFuel, s') ->
    exists new,
      trace s' = trace s ++ new
      /\ chunks_sent f new = chunks_read env r (List.length (trace s)) new
      /\ chunks_sent r new = chunks_read env f (List.length (trace s)) new.
Proof.
  intros Hne fuel s s' Hr Hf. rewrite (_proxy_loop_turns env fuel s r f Hr Hf).
  revert s Hr Hf. induction fuel as [| fuel IH]; intros s Hr Hf.
  - cbn [proxy_turns]. intro H. injection H as <-.
    exists []. rewrite app_nil_r. repeat split.
  - cbn [proxy_turns]. unfold bind.
    destruct (proxy_turn env [Some r; Some f] s) as [[[] | e |] s1] eqn:Et;
      try discriminate;
      [| exfalso; exact (proxy_turn_ends env s r f s1 Hr Hf Et)].
    destruct (proxy_turn_exact env s r f s1 Hr Hf Hne Et)
      as (Hr1 & Hf1 & new1 & T1 & A1 & B1).
    intro Hrest. destruct (IH s1 Hr1 Hf1 Hrest) as (new2 & T2 & A2 & B2).
    exists (new1 ++ new2). split; [rewrite T2, T1, app_assoc; reflexivity |].
    rewrite !chunks_sent_app, !chunks_read_app.
    rewrite T1, length_app in A2, B2.
    rewrite A1, B1, A2, B2. split; reflexivity.
Qed.

Lemma relay_is_exact_witness :
  exists new,
    trace (snd (_proxy_loop bridge_talking 3 relaying_state))
    = trace relaying_state ++ new
    /\ chunks_sent 0%nat new
       = chunks_read bridge_talking 2%nat
           (List.length (trace relaying_state)) new
    /\ chunks_sent 2%nat new
       = chunks_read bridge_talking 0%nat
           (List.length (trace relaying_state)) new.
Proof.
  apply (relay_is_exact bridge_talking 2%nat 0%nat ltac:(discriminate) 3
           relaying_state
           (snd (_proxy_loop bridge_talking 3 relaying_state))).
  - reflexivity.
  - reflexivity.
  - vm_compute. reflexivity.
Defined.

(** ** Establishing the relay *)

(** X18: when flrig accepts the connection and no child is running, an
    attempt spawns exactly one child, with the serial device and the
    address of a new listening socket on its command line, accepts one
    connection on that socket, closes it, and enters the proxy loop in the
    Relaying state: control socket, bridge socket and child held, the two
    sockets different. *)
Theorem attempt_establishes_relay port serial exe env fuel s a :
  _rigctlcom s = None ->
  let t := List.length (trace s) in
  let ns := next_sock s in
  let cmd := [Lit exe; Lit "-m4"; Lit "-S115200"; ArgR serial; Argr a] in
  connect_result env (1 + t) = Ok tt ->
  listen_result env (5 + t) = Ok tt ->
  getsockname_result env (6 + t) = Ok a ->
  popen_result env (8 + t) = Ok tt ->
  accept_result env (9 + t) = Ok tt ->
  attempt port serial exe env fuel s
  = _proxy_loop env fuel
      {| running := running s;
         _flrig_sock := Some ns;
         _rigctlcom_sock := Some (S (S ns));
         _rigctlcom := Some (next_proc s);
         _thread := _thread s; thread := thread s;
         trace := trace s
                  ++ [NewSocket ns; Connect ns ("127.0.0.1"%string, port);
                      Log INFO (ConnectedToFlrig port);
                      Log DEBUG SettingUpRigctlcom;
                      NewSocket (S ns);
                      BindListen (S ns) ("127.0.0.1"%string, 0);
                      GetSockName (S ns);
                      Log DEBUG (SpawningRigctlcom cmd);
                      Popen (next_proc s) cmd;
                      Accept (S ns) (S (S ns));
                      Log INFO RigctlConnected;
                      Close (S ns)];
         next_sock := S (S (S ns));
         next_proc := S (next_proc s) |}.
Proof.
  destruct s as [run fs rs rc th0 th tr ns np].
  cbn [_rigctlcom trace next_sock next_proc running _thread thread Nat.add].
  intros -> Hc Hl Hg Hp Ha.
  unfold attempt, _connect_flrig, _spawn_rigctlcom.
  unfold bind at 1. unfold bind at 1. unfold socket_socket.
  step. rewrite Hc. step. rewrite Hl. step. rewrite Hg. step.
  rewrite Hp. step. rewrite Ha. step.
  rewrite <- !app_assoc. reflexivity.
Qed.

Lemma attempt_establishes_relay_witness :
  attempt 12345 "/dev/ttyS0" "rigctlcom" idle 7 started_state
  = _proxy_loop idle 7
      {| running := running started_state;
         _flrig_sock := Some (next_sock started_state);
         _rigctlcom_sock := Some (S (S (next_sock started_state)));
         _rigctlcom := Some (next_proc started_state);
         _thread := _thread started_state; thread := thread started_state;
         trace := trace started_state
                  ++ [NewSocket (next_sock started_state);
                      Connect (next_sock started_state)
                              ("127.0.0.1"%string, 12345);
                      Log INFO (ConnectedToFlrig 12345);
                      Log DEBUG SettingUpRigctlcom;
                      NewSocket (S (next_sock started_state));
                      BindListen (S (next_sock started_state))
                                 ("127.0.0.1"%string, 0);
                      GetSockName (S (next_sock started_state));
                      Log DEBUG
                        (SpawningRigctlcom
                           [Lit "rigctlcom"; Lit "-m4"; Lit "-S115200";
                            ArgR "/dev/ttyS0";
                            Argr ("127.0.0.1"%string, 40000)]);
                      Popen (next_proc started_state)
                        [Lit "rigctlcom"; Lit "-m4"; Lit "-S115200";
                         ArgR "/dev/ttyS0"; Argr ("127.0.0.1"%string, 40000)];
                      Accept (S (next_sock started_state))
                             (S (S (next_sock started_state)));
                      Log INFO RigctlConnected;
                      Close (S (next_sock started_state))];
         next_sock := S (S (S (next_sock started_state)));
         next_proc := S (next_proc started_state) |}.
Proof.
  apply (attempt_establishes_relay 12345 "/dev/ttyS0" "rigctlcom" idle 7
           started_state ("127.0.0.1"%string, 40000)); reflexivity.
Defined.

(** X19: starting with no child and no bridge socket held, when the
    spawned child never connects back ([accept] fails with a socket error
    other than connection-refused), the reset kills the
    child, waits for it and closes the control socket, and nothing is held
    afterwards; the listening socket made for the rendezvous is not
    closed. *)
Theorem failed_accept_is_reset port serial exe env fuel s a e :
  _rigctlcom s = None -> _rigctlcom_sock s = None ->
  let t := List.length (trace s) in
  let ns := next_sock s in
  let cmd := [Lit exe; Lit "-m4"; Lit "-S115200"; ArgR serial; Argr a] in
  connect_result env (1 + t) = Ok tt ->
  listen_result env (5 + t) = Ok tt ->
  getsockname_result env (6 + t) = Ok a ->
  popen_result env (8 + t) = Ok tt ->
  accept_result env (9 + t) = Err e ->
  is_socket_error e = true -> e <> ConnectionRefusedError ->
  exists s2,
    try_ (attempt port serial exe env fuel) on_exception s = (Ret tt, s2)
    /\ released s2
    /\ trace s2
       = trace s
         ++ [NewSocket ns; Connect ns ("127.0.0.1"%string, port);
             Log INFO (ConnectedToFlrig port);
             Log DEBUG SettingUpRigctlcom;
             NewSocket (S ns);
             BindListen (S ns) ("127.0.0.1"%string, 0);
             GetSockName (S ns);
             Log DEBUG (SpawningRigctlcom cmd);
             Popen (next_proc s) cmd;
             Accept (S ns) (S (S ns));
             Log DEBUG (SocketReset e);
             Log INFO StoppingRigctlcom; Kill (next_proc s);
             Wait (next_proc s); Log DEBUG RigctlcomIsDead;
             Log DEBUG ClosingFlrigSocket; Close ns].
Proof.
  destruct s as [run fs rs rc th0 th tr ns np].
  cbn [_rigctlcom _rigctlcom_sock trace next_sock next_proc Nat.add].
  intros -> -> Hc Hl Hg Hp Ha Hsock Hne.
  unfold attempt, _connect_flrig, _spawn_rigctlcom, on_exception, _reset,
    released.
  destruct e; try discriminate Hsock; try contradiction;
    exec; rewrite Hc; exec; rewrite Hl; exec; rewrite Hg; exec;
    rewrite Hp; exec; rewrite Ha; exec;
    (eexists; split; [reflexivity |]; split; [repeat split |];
     cbn [trace]; rewrite <- !app_assoc; reflexivity).
Qed.

Lemma failed_accept_is_reset_witness :
  exists s2,
    try_ (attempt 12345 "/dev/ttyS0" "rigctlcom" never_accepting 7)
         on_exception started_state
    = (Ret tt, s2)
    /\ released s2
    /\ trace s2
       = trace started_state
         ++ [NewSocket (next_sock started_state);
             Connect (next_sock started_state) ("127.0.0.1"%string, 12345);
             Log INFO (ConnectedToFlrig 12345);
             Log DEBUG SettingUpRigctlcom;
             NewSocket (S (next_sock started_state));
             BindListen (S (next_sock started_state)) ("127.0.0.1"%string, 0);
             GetSockName (S (next_sock started_state));
             Log DEBUG
               (SpawningRigctlcom
                  [Lit "rigctlcom"; Lit "-m4"; Lit "-S115200";
                   ArgR "/dev/ttyS0"; Argr ("127.0.0.1"%string, 40000)]);
             Popen (next_proc started_state)
               [Lit "rigctlcom"; Lit "-m4"; Lit "-S115200";
                ArgR "/dev/ttyS0"; Argr ("127.0.0.1"%string, 40000)];
             Accept (S (next_sock started_state))
                    (S (S (next_sock started_state)));
             Log DEBUG (SocketReset OSError);
             Log INFO StoppingRigctlcom; Kill (next_proc started_state);
             Wait (next_proc started_state); Log DEBUG RigctlcomIsDead;
             Log DEBUG ClosingFlrigSocket;
             Close (next_sock started_state)].
Proof.
  apply (failed_accept_is_reset 12345 "/dev/ttyS0" "rigctlcom"
           never_accepting 7 started_state ("127.0.0.1"%string, 40000)
           OSError); try reflexivity.
  discriminate.
Defined.

End FlRigProxyMore.
